(** * Authentication state synchronisation: store, synchronizer, interceptors, server context

    A shallow embedding of the authentication protocol of the application:

    - [src/store/authStore.ts]    the Jotai store and the orchestrators
    - the [AuthProvider] component (session synchronizer)
    - the tRPC client ([errorLink] and the [headers] hook of the batch link)
    - [src/server/context.ts]     the per-request context builder
    - the example router ([hello], [getAll], [getUser], [updateProfile])

    Asynchronous code is embedded as a small free monad [Prog]: reads and
    writes of the mutable cells the code touches, [await]s of a call to the
    remote provider, output (console, observer), [throw], with [try]/[catch]
    and [try]/[finally] as combinators.  Two semantics are given: [run]
    plays a program against an arbitrary provider and returns the events
    it performed, and [step] interleaves any number of pending operations
    at their suspension points. *)

From Stdlib Require Import String Ascii List Bool Arith Lia.
Import ListNotations.
Open Scope string_scope.

(* ================================================================= *)
(** ** Data model *)

(** [User] of [authStore.ts].  The interface declares [email: string],
    but the code fills it with [email!], which is erased at run time: a
    provider user without e-mail gives a [User] whose [email] is
    undefined. *)
Record User : Type := mkUser {
  id : string;
  email : option string;
  name : option string
}.

(** The provider's user object, as far as the code reads it: [id],
    [email] (optional in the provider's type: accounts created by phone
    or anonymously have none) and [user_metadata?.name]. *)
Record SupabaseUser : Type := mkSupabaseUser {
  su_id : string;
  su_email : option string;
  su_metadata_name : option string
}.

(** The provider's session: [session.user] and [session.access_token]. *)
Record Session : Type := mkSession {
  session_user : option SupabaseUser;
  access_token : string
}.

(** An error object returned by the provider in the [error] field. *)
Record AuthError : Type := mkAuthError { ae_message : string }.

(** A thrown value.  The code rethrows provider errors ([throw error]);
    anything else that is thrown is either [null] or [undefined], or a
    value kept with its [message] property, which may be missing. *)
Inductive Thrown : Type :=
| ThrownAuthError (e : AuthError)
| ThrownValue (message : option string)
| ThrownNull
| ThrownUndefined.

(** [error?.message] *)
Definition thrown_message (t : Thrown) : option string :=
  match t with
  | ThrownAuthError e => Some (ae_message e)
  | ThrownValue m => m
  | ThrownNull => None
  | ThrownUndefined => None
  end.

(** The [TypeError] of a property read on [undefined] or [null].  The
    message text is the engine's; V8's (Node, Chrome) is used here. *)
Definition TypeError_reading (of_null : bool) (property : string) : Thrown :=
  ThrownValue
    (Some ("Cannot read properties of " ++
           (if of_null then "null" else "undefined") ++
           " (reading '" ++ property ++ "')")).

(** [AuthState] of [authStore.ts]. *)
Record AuthState : Type := mkAuthState {
  isAuthenticated : bool;
  user : option User;
  loading : bool;
  error : option string;
  loggingOut : bool
}.

(** [AuthResponse] of [authStore.ts]. *)
Record AuthResponse : Type := mkAuthResponse {
  ar_user : option User;
  needsConfirmation : bool;
  success : bool
}.

(** Initial value of [authStateAtom]. *)
Definition authState_init : AuthState :=
  {| isAuthenticated := false; user := None; loading := true;
     error := None; loggingOut := false |}.

(** JavaScript truthiness of a string and of an optional string. *)
Definition truthy (s : string) : bool := negb (s =? "").


(** [s.split('@')[0]]: the part of [s] before its first ['@']. *)
Fixpoint split_at_0 (s : string) : string :=
  match s with
  | EmptyString => EmptyString
  | String c r => if Ascii.eqb c "@"%char then EmptyString
                  else String c (split_at_0 r)
  end.

(** [u.email!.split('@')[0]]: none when [u.email] is undefined (the
    call of [split] on [undefined] throws). *)
Definition email_local_part (u : SupabaseUser) : option string :=
  match su_email u with
  | Some e => Some (split_at_0 e)
  | None => None
  end.

(** The object literal
    [{ id: u.id, email: u.email!, name: u.user_metadata?.name || u.email!.split('@')[0] }]
    that the code writes at every place where it derives a [User]: the
    user it evaluates to, or none when its evaluation throws, which it
    does when the display name is missing or empty and there is no
    e-mail. *)
Definition toUser (u : SupabaseUser) : option User :=
  match (match su_metadata_name u with
         | Some n => if truthy n then Some n else email_local_part u
         | None => email_local_part u
         end) with
  | Some n => Some {| id := su_id u; email := su_email u; name := Some n |}
  | None => None
  end.

(* ================================================================= *)
(** ** The remote provider *)

Inductive ProviderCall : Type :=
| getSession
| signUp (email password : string)
| signInWithPassword (email password : string)
| signOut (scope : string)
| getUser (token : string).

(** What a provider call resolves to: [{ data: { user, session }, error }]. *)
Record Response : Type := mkResponse {
  data_user : option SupabaseUser;
  data_session : option Session;
  resp_error : option AuthError
}.

Inductive Outcome : Type :=
| Resolved (r : Response)
| Rejected (t : Thrown).

(* ================================================================= *)
(** ** Mutable cells, output, and the world *)

Inductive Cell : Type -> Type :=
| authStateAtom : Cell AuthState        (* the store *)
| initializingRef : Cell bool           (* AuthProvider: useRef(false) *)
| isMounted : Cell bool                 (* AuthProvider: let isMounted *)
| location_href : Cell string.          (* window.location.href *)

Inductive ConsoleLevel : Type := c_log | c_warn | c_error.

(** An RPC error as the error link sees it: whether it is a
    [TRPCClientError], and [err.data?.code]. *)
Record RpcError : Type := mkRpcError {
  is_TRPCClientError : bool;
  data_code : option string;
  rpc_message : string
}.

Inductive Output : Type :=
| console (l : ConsoleLevel) (msg : string)
| observer_next (value : string)
| observer_error (err : RpcError)
| observer_complete.

Inductive Event : Type :=
| ev_write {R : Type} (c : Cell R) (v : R)
| ev_call (c : ProviderCall) (o : Outcome)
| ev_out (o : Output).

Record World : Type := mkWorld {
  w_store : AuthState;
  w_initializingRef : bool;
  w_isMounted : bool;
  w_href : string;
  w_window : bool;            (* typeof window !== 'undefined' *)
  w_node_env : string;        (* process.env.NODE_ENV *)
  w_now : nat                 (* the clock read by [new Date()] *)
}.

Definition read {R} (c : Cell R) (w : World) : R :=
  match c in Cell R return R with
  | authStateAtom => w_store w
  | initializingRef => w_initializingRef w
  | isMounted => w_isMounted w
  | location_href => w_href w
  end.

Definition write {R} (c : Cell R) : R -> World -> World :=
  match c in Cell R return R -> World -> World with
  | authStateAtom => fun v w =>
      {| w_store := v; w_initializingRef := w_initializingRef w;
         w_isMounted := w_isMounted w; w_href := w_href w;
         w_window := w_window w; w_node_env := w_node_env w;
         w_now := w_now w |}
  | initializingRef => fun v w =>
      {| w_store := w_store w; w_initializingRef := v;
         w_isMounted := w_isMounted w; w_href := w_href w;
         w_window := w_window w; w_node_env := w_node_env w;
         w_now := w_now w |}
  | isMounted => fun v w =>
      {| w_store := w_store w; w_initializingRef := w_initializingRef w;
         w_isMounted := v; w_href := w_href w;
         w_window := w_window w; w_node_env := w_node_env w;
         w_now := w_now w |}
  | location_href => fun v w =>
      {| w_store := w_store w; w_initializingRef := w_initializingRef w;
         w_isMounted := w_isMounted w; w_href := v;
         w_window := w_window w; w_node_env := w_node_env w;
         w_now := w_now w |}
  end.

(* ================================================================= *)
(** ** Programs *)

Inductive Prog (A : Type) : Type :=
| Ret (a : A)
| Throw (t : Thrown)
| Read {R : Type} (c : Cell R) (k : R -> Prog A)
| Write {R : Type} (c : Cell R) (v : R) (k : Prog A)
| NodeEnv (k : string -> Prog A)          (* process.env.NODE_ENV *)
| HasWindow (k : bool -> Prog A)          (* typeof window !== 'undefined' *)
| Now (k : nat -> Prog A)                 (* new Date() *)
| Out (o : Output) (k : Prog A)
| Await (c : ProviderCall) (k : Outcome -> Prog A).

Arguments Ret {A} a.
Arguments Throw {A} t.
Arguments Read {A R} c k.
Arguments Write {A R} c v k.
Arguments NodeEnv {A} k.
Arguments HasWindow {A} k.
Arguments Now {A} k.
Arguments Out {A} o k.
Arguments Await {A} c k.

Fixpoint bind {A B} (p : Prog A) (f : A -> Prog B) : Prog B :=
  match p with
  | Ret a => f a
  | Throw t => Throw t
  | Read c k => Read c (fun v => bind (k v) f)
  | Write c v k => Write c v (bind k f)
  | NodeEnv k => NodeEnv (fun v => bind (k v) f)
  | HasWindow k => HasWindow (fun v => bind (k v) f)
  | Now k => Now (fun v => bind (k v) f)
  | Out o k => Out o (bind k f)
  | Await c k => Await c (fun o => bind (k o) f)
  end.

(** [try { p } catch (e) { h e }] *)
Fixpoint try_catch {A} (p : Prog A) (h : Thrown -> Prog A) : Prog A :=
  match p with
  | Ret a => Ret a
  | Throw t => h t
  | Read c k => Read c (fun v => try_catch (k v) h)
  | Write c v k => Write c v (try_catch k h)
  | NodeEnv k => NodeEnv (fun v => try_catch (k v) h)
  | HasWindow k => HasWindow (fun v => try_catch (k v) h)
  | Now k => Now (fun v => try_catch (k v) h)
  | Out o k => Out o (try_catch k h)
  | Await c k => Await c (fun o => try_catch (k o) h)
  end.

(** [try { p } finally { f }] *)
Fixpoint try_finally {A} (p : Prog A) (f : Prog unit) : Prog A :=
  match p with
  | Ret a => bind f (fun _ => Ret a)
  | Throw t => bind f (fun _ => Throw t)
  | Read c k => Read c (fun v => try_finally (k v) f)
  | Write c v k => Write c v (try_finally k f)
  | NodeEnv k => NodeEnv (fun v => try_finally (k v) f)
  | HasWindow k => HasWindow (fun v => try_finally (k v) f)
  | Now k => Now (fun v => try_finally (k v) f)
  | Out o k => Out o (try_finally k f)
  | Await c k => Await c (fun o => try_finally (k o) f)
  end.

Declare Scope prog_scope.
Delimit Scope prog_scope with prog.
Notation "x <- p ;; q" := (bind p (fun x => q))
  (at level 61, p at next level, right associativity) : prog_scope.
Notation "p ;; q" := (bind p (fun _ => q))
  (at level 61, right associativity) : prog_scope.
Open Scope prog_scope.

(** [await supabase.auth.c(...)]: a rejected promise throws at the await. *)
Definition await (c : ProviderCall) : Prog Response :=
  Await c (fun o => match o with
                    | Resolved r => Ret r
                    | Rejected t => Throw t
                    end).

Definition get {R} (c : Cell R) : Prog R := Read c Ret.
Definition set {R} (c : Cell R) (v : R) : Prog unit := Write c v (Ret tt).
Definition console_log (msg : string) : Prog unit := Out (console c_log msg) (Ret tt).
Definition console_warn (msg : string) : Prog unit := Out (console c_warn msg) (Ret tt).
Definition console_error (msg : string) : Prog unit := Out (console c_error msg) (Ret tt).

(** [if (process.env.NODE_ENV === 'development') { p }] *)
Definition when_development (p : Prog unit) : Prog unit :=
  NodeEnv (fun e => if e =? "development" then p else Ret tt).

(** Evaluating the user literal (see [toUser]) in a program: it yields
    the user, or throws the [TypeError] of [undefined.split]. *)
Definition user_literal (u : SupabaseUser) : Prog User :=
  match toUser u with
  | Some user => Ret user
  | None => Throw (TypeError_reading false "split")
  end.

(* ================================================================= *)
(** ** [src/store/authStore.ts] *)

(** The snapshot written on every successful authentication. *)
Definition authenticated_state (u : User) : AuthState :=
  {| isAuthenticated := true; user := Some u; loading := false;
     error := None; loggingOut := false |}.

(** The logged-out snapshot, with the [error] the code puts there. *)
Definition logged_out_state (e : option string) : AuthState :=
  {| isAuthenticated := false; user := None; loading := false;
     error := e; loggingOut := false |}.

(** [setLoadingAtom]: [{ ...currentState, loading, error: loading ? null : currentState.error }] *)
Definition setLoadingAtom (l : bool) : Prog unit :=
  currentState <- get authStateAtom ;;
  set authStateAtom
    {| isAuthenticated := isAuthenticated currentState;
       user := user currentState;
       loading := l;
       error := if l then None else error currentState;
       loggingOut := loggingOut currentState |}.

(** [setAuthStateAtom] *)
Definition setAuthStateAtom (newState : AuthState) : Prog unit :=
  set authStateAtom newState.

(** [clearErrorAtom]: [{ ...currentState, error: null }] *)
Definition clearErrorAtom : Prog unit :=
  currentState <- get authStateAtom ;;
  set authStateAtom
    {| isAuthenticated := isAuthenticated currentState;
       user := user currentState;
       loading := loading currentState;
       error := None;
       loggingOut := loggingOut currentState |}.

(** [session?.user] *)
Definition session_user_opt (s : option Session) : option SupabaseUser :=
  match s with Some s' => session_user s' | None => None end.

(** [error?.message || 'Authentication initialization failed'] *)
Definition init_failure_message (t : Thrown) : string :=
  match thrown_message t with
  | Some m => if truthy m then m else "Authentication initialization failed"
  | None => "Authentication initialization failed"
  end.

(** [initializeAuthAtom] *)
Definition initializeAuthAtom : Prog unit :=
  try_catch
    (setLoadingAtom true ;;
     r <- await getSession ;;
     match resp_error r with
     | Some e =>
         console_error "Auth initialization error:" ;;
         set authStateAtom (logged_out_state (Some (ae_message e)))
         (* return *)
     | None =>
         match session_user_opt (data_session r) with
         | Some su =>
             user <- user_literal su ;;
             set authStateAtom (authenticated_state user)
         | None => set authStateAtom (logged_out_state None)
         end
     end)
    (fun err =>
       console_error "Auth initialization failed:" ;;
       set authStateAtom (logged_out_state (Some (init_failure_message err)))).

(** [signUpAtom] *)
Definition signUpAtom (email password : string) : Prog AuthResponse :=
  try_catch
    (setLoadingAtom true ;;
     r <- await (signUp email password) ;;
     match resp_error r with
     | Some e => setLoadingAtom false ;; Throw (ThrownAuthError e)
     | None =>
         user <- match data_user r with
                 | Some su => u <- user_literal su ;; Ret (Some u)
                 | None => Ret None
                 end ;;
         match data_user r, data_session r with
         | Some _, Some _ =>
             set authStateAtom
               {| isAuthenticated := true; user := user; loading := false;
                  error := None; loggingOut := false |}
         | _, _ => setLoadingAtom false
         end ;;
         Ret {| ar_user := user;
                needsConfirmation := match data_user r, data_session r with
                                     | Some _, None => true
                                     | _, _ => false
                                     end;
                success := match data_user r with
                           | Some _ => true
                           | None => false
                           end |}
     end)
    (fun err => setLoadingAtom false ;; Throw err).

(** [signInAtom] *)
Definition signInAtom (email password : string) : Prog AuthResponse :=
  try_catch
    (setLoadingAtom true ;;
     r <- await (signInWithPassword email password) ;;
     match resp_error r with
     | Some e => setLoadingAtom false ;; Throw (ThrownAuthError e)
     | None =>
         user <- match data_user r with
                 | Some su => u <- user_literal su ;; Ret (Some u)
                 | None => Ret None
                 end ;;
         match data_user r, data_session r with
         | Some _, Some _ =>
             set authStateAtom
               {| isAuthenticated := true; user := user; loading := false;
                  error := None; loggingOut := false |}
         | _, _ => setLoadingAtom false
         end ;;
         Ret {| ar_user := user;
                needsConfirmation := match data_user r, data_session r with
                                     | Some _, None => true
                                     | _, _ => false
                                     end;
                success := match data_user r, data_session r with
                           | Some _, Some _ => true
                           | _, _ => false
                           end |}
     end)
    (fun err => setLoadingAtom false ;; Throw err).

(** [{ ...currentState, loggingOut: true }] *)
Definition logging_out (currentState : AuthState) : AuthState :=
  {| isAuthenticated := isAuthenticated currentState;
     user := user currentState;
     loading := loading currentState;
     error := error currentState;
     loggingOut := true |}.

(** [signOutAtom] *)
Definition signOutAtom : Prog unit :=
  try_catch
    (currentState <- get authStateAtom ;;
     set authStateAtom (logging_out currentState) ;;
     r <- await (signOut "global") ;;
     match resp_error r with
     | Some _ => console_error "Sign out error:"
     | None => Ret tt
     end ;;
     r' <- await getSession ;;
     match data_session r' with
     | Some _ =>
         console_warn "[Auth] Session still exists after signOut! This should not happen." ;;
         console_warn "[Auth] Session ID:" ;;
         await (signOut "global") ;; Ret tt
     | None =>
         when_development
           (console_log "Session after signOut:" ;;
            console_log "[Auth] Session successfully cleared")
     end ;;
     set authStateAtom (logged_out_state None))
    (fun _ =>
       console_error "Sign out error:" ;;
       set authStateAtom (logged_out_state None)).

(* ================================================================= *)
(** ** The [AuthProvider] component (session synchronizer) *)

(** [initialize], the async function the effect starts. *)
Definition initialize : Prog unit :=
  r <- get initializingRef ;;
  if r then Ret tt
  else
    set initializingRef true ;;
    try_finally initializeAuthAtom
      (m <- get isMounted ;;
       if m then set initializingRef false else Ret tt).

(** The callback registered with [supabase.auth.onAuthStateChange]. *)
Definition onAuthStateChange (event : string) (session : option Session) : Prog unit :=
  m <- get isMounted ;;
  r <- get initializingRef ;;
  if negb m || r then Ret tt
  else
    console_log "Auth state change:" ;;
    try_catch
      (if (event =? "SIGNED_IN") || (event =? "TOKEN_REFRESHED") then
         match session_user_opt session with
         | Some su =>
             user <- user_literal su ;;
             setAuthStateAtom (authenticated_state user)
         | None => Ret tt
         end
       else if event =? "SIGNED_OUT" then
         setAuthStateAtom (logged_out_state None)
       else if event =? "USER_UPDATED" then
         match session_user_opt session with
         | Some su =>
             user <- user_literal su ;;
             setAuthStateAtom (authenticated_state user)
         | None => Ret tt
         end
       else Ret tt)
      (fun _ =>
         console_error "Auth state change error:" ;;
         setLoadingAtom false).

(** The effect's cleanup: [isMounted = false] (and the unsubscription). *)
Definition cleanup : Prog unit := set isMounted false.

(* ================================================================= *)
(** ** The tRPC client: [errorLink] and [headers] *)

Definition Headers : Type := list (string * string).

(** [session?.access_token], kept only when truthy. *)
Definition session_access_token (s : option Session) : option string :=
  match s with
  | Some s' => if truthy (access_token s') then Some (access_token s') else None
  | None => None
  end.

(** [{ authorization: `Bearer ${token}` }] *)
Definition bearer (token : string) : Headers :=
  [("authorization", "Bearer " ++ token)].

(** The [headers()] hook of [httpBatchLink]. *)
Definition headers : Prog Headers :=
  authState <- get authStateAtom ;;
  (* State 1: definitely authenticated *)
  if isAuthenticated authState then
    when_development
      (console_log "[tRPC] Authenticated - fetching session from Supabase") ;;
    r <- await getSession ;;
    match session_access_token (data_session r) with
    | Some token => Ret (bearer token)
    | None =>
        when_development
          (console_warn "[tRPC] Auth state mismatch: Jotai says authenticated but no Supabase session") ;;
        Ret []
    end
  (* State 2: still initializing *)
  else if loading authState then
    when_development
      (console_log "[tRPC] Auth state loading - checking Supabase session directly") ;;
    r <- await getSession ;;
    match session_access_token (data_session r) with
    | Some token =>
        when_development (console_log "[tRPC] Using session during initialization") ;;
        Ret (bearer token)
    | None => Ret []
    end
  (* State 3: not loading, not authenticated *)
  else
    when_development (console_log "[tRPC] Not authenticated - no auth headers sent") ;;
    Ret [].

(** What the next link delivers for one operation. *)
Inductive Emission : Type :=
| em_next (value : string)
| em_error (err : RpcError)
| em_complete.

(** [err instanceof TRPCClientError && err.data?.code === 'UNAUTHORIZED'] *)
Definition is_unauthorized (err : RpcError) : bool :=
  is_TRPCClientError err &&
  match data_code err with
  | Some c => c =? "UNAUTHORIZED"
  | None => false
  end.

(** [errorLink]: the three callbacks of the subscription to [next(op)]. *)
Definition errorLink (e : Emission) : Prog unit :=
  match e with
  | em_next value => Out (observer_next value) (Ret tt)
  | em_error err =>
      when_development
        (console_log "[tRPC Link] Error intercepted:" ;;
         console_log "[tRPC Link] Error data:" ;;
         console_log "[tRPC Link] Error code:") ;;
      (if is_unauthorized err then
         when_development (console_log "[tRPC Link] Redirecting to / due to UNAUTHORIZED") ;;
         HasWindow (fun w => if w then set location_href "/" else Ret tt)
       else Ret tt) ;;
      Out (observer_error err) (Ret tt)
  | em_complete => Out observer_complete (Ret tt)
  end.

(** The callbacks of several operations running one after the other in
    the same tick. *)
Fixpoint same_tick (es : list Emission) : Prog unit :=
  match es with
  | [] => Ret tt
  | e :: es' => errorLink e ;; same_tick es'
  end.

(* ================================================================= *)
(** ** [src/server/context.ts] and the router *)

Record Context : Type := mkContext {
  ctx_user : option User;
  ctx_date : nat
}.

(** [createContext]; the argument is [req.headers.authorization]. *)
Definition createContext (authorization : option string) : Prog Context :=
  user <-
    match authorization with
    | Some authHeader =>
        if truthy authHeader && String.prefix "Bearer " authHeader then
          let token := String.substring 7 (String.length authHeader - 7) authHeader in
          try_catch
            (r <- await (getUser token) ;;
             match resp_error r, data_user r with
             | None, Some supabaseUser =>
                 console_log "supabaseUser ID" ;;
                 u <- user_literal supabaseUser ;;
                 Ret (Some u)
             | _, _ => Ret None
             end)
            (fun _ => console_error "Error verifying token:" ;; Ret None)
        else Ret None
    | None => Ret None
    end ;;
  Now (fun date => Ret {| ctx_user := user; ctx_date := date |}).

(** The outcome of an RPC procedure: its value, or a [TRPCError] code. *)
Inductive ProcResult (A : Type) : Type :=
| proc_ok (a : A)
| proc_error (code : string).
Arguments proc_ok {A} a.
Arguments proc_error {A} code.

(** Modelled from the spec: [publicProcedure] of [src/server/trpc.ts],
    which is not among the sources.  "A public operation runs regardless." *)
Definition publicProcedure {A} (resolver : Context -> A) (ctx : Context) : ProcResult A :=
  proc_ok (resolver ctx).

(** Modelled from the spec: [protectedProcedure] of [src/server/trpc.ts],
    which is not among the sources.  "A protected RPC operation fails with
    an UNAUTHORIZED condition whenever RequestContext.user == null";
    otherwise the resolver runs with the user of the context. *)
Definition protectedProcedure {A} (resolver : User -> Context -> A) (ctx : Context)
  : ProcResult A :=
  match ctx_user ctx with
  | None => proc_error "UNAUTHORIZED"
  | Some u => proc_ok (resolver u ctx)
  end.


(** [exampleRouter.getAll] *)
Definition getAll : Context -> ProcResult (list (nat * string)) :=
  publicProcedure (fun _ => [(1, "First post"); (2, "Second post")]).

(** [exampleRouter.getUser] *)
Definition getUser_procedure : Context -> ProcResult User :=
  protectedProcedure (fun u _ => u).


(** One request: build the context, then run the procedure in it. *)
Definition handle_request {A} (authorization : option string)
    (procedure : Context -> ProcResult A) : Prog (Context * ProcResult A) :=
  ctx <- createContext authorization ;;
  Ret (ctx, procedure ctx).

(* ================================================================= *)
(** ** Running a program against its environment *)

Inductive Result (A : Type) : Type :=
| Returned (a : A)
| Threw (t : Thrown).
Arguments Returned {A} a.
Arguments Threw {A} t.

(** What a run leaves behind: how the program ended, the world, the
    environment, and the events it performed, oldest first. *)
Record Ran (E A : Type) : Type := mkRan {
  result : Result A;
  world : World;
  environment : E;
  events : list Event
}.
Arguments mkRan {E A}.
Arguments result {E A}.
Arguments world {E A}.
Arguments environment {E A}.
Arguments events {E A}.

Definition emit {E A} (ev : Event) (r : Ran E A) : Ran E A :=
  mkRan (result r) (world r) (environment r) (ev :: events r).

Section Run.

(** The environment is everything the program does not control: the
    remote provider, and whatever else runs while the program is
    suspended at an [await].  It answers a provider call with an outcome
    and may change the world while doing so. *)
Variable E : Type.
Variable env : ProviderCall -> World -> E -> Outcome * World * E.

Fixpoint run {A} (p : Prog A) (w : World) (e : E) : Ran E A :=
  match p with
  | Ret a => mkRan (Returned a) w e []
  | Throw t => mkRan (Threw t) w e []
  | Read c k => run (k (read c w)) w e
  | Write c v k => emit (ev_write c v) (run k (write c v w) e)
  | NodeEnv k => run (k (w_node_env w)) w e
  | HasWindow k => run (k (w_window w)) w e
  | Now k => run (k (w_now w)) w e
  | Out o k => emit (ev_out o) (run k w e)
  | Await c k =>
      let '(o, w', e') := env c w e in
      emit (ev_call c o) (run (k o) w' e')
  end.

End Run.

Arguments run {E} env {A} p w e.

(** An environment that is only a provider: it leaves the world alone. *)
Definition quiet {P} (respond : ProviderCall -> P -> Outcome * P)
  : ProviderCall -> World -> P -> Outcome * World * P :=
  fun c w p => let (o, p') := respond c p in (o, w, p').

(** A provider that plays a script of outcomes, one per call, and rejects
    once the script is over. *)
Definition scripted : ProviderCall -> list Outcome -> Outcome * list Outcome :=
  fun _ s => match s with
             | o :: s' => (o, s')
             | [] => (Rejected (ThrownValue (Some "network error")), [])
             end.

(** Projections of a list of events. *)
Definition store_write (ev : Event) : option AuthState :=
  match ev with
  | @ev_write _ c v =>
      match c in Cell R return R -> option AuthState with
      | authStateAtom => fun s => Some s
      | _ => fun _ => None
      end v
  | _ => None
  end.

Fixpoint store_writes (evs : list Event) : list AuthState :=
  match evs with
  | [] => []
  | ev :: evs' =>
      match store_write ev with
      | Some s => s :: store_writes evs'
      | None => store_writes evs'
      end
  end.

Fixpoint provider_calls (evs : list Event) : list (ProviderCall * Outcome) :=
  match evs with
  | [] => []
  | ev_call c o :: evs' => (c, o) :: provider_calls evs'
  | _ :: evs' => provider_calls evs'
  end.

Fixpoint redirects (evs : list Event) : list string :=
  match evs with
  | [] => []
  | @ev_write _ c v :: evs' =>
      match c in Cell R return R -> list string with
      | location_href => fun s => s :: redirects evs'
      | _ => fun _ => redirects evs'
      end v
  | _ :: evs' => redirects evs'
  end.

Fixpoint warnings (evs : list Event) : list string :=
  match evs with
  | [] => []
  | ev_out (console c_warn msg) :: evs' => msg :: warnings evs'
  | _ :: evs' => warnings evs'
  end.

Fixpoint observed (evs : list Event) : list Output :=
  match evs with
  | [] => []
  | ev_out (console _ _) :: evs' => observed evs'
  | ev_out o :: evs' => o :: observed evs'
  | _ :: evs' => observed evs'
  end.

Definition is_getSession (c : ProviderCall * Outcome) : bool :=
  match fst c with getSession => true | _ => false end.

Definition is_signOut (c : ProviderCall * Outcome) : bool :=
  match fst c with signOut _ => true | _ => false end.

(* ================================================================= *)
(** ** Interleaving: operations suspended at their [await]s *)

(** Where a program stands after running up to its next [await]. *)
Inductive Susp (A : Type) : Type :=
| Finished (r : Result A)
| Awaiting (c : ProviderCall) (k : Outcome -> Prog A).
Arguments Finished {A} r.
Arguments Awaiting {A} c k.

(** Run [p] up to its next suspension point: one uninterrupted piece of
    synchronous code. *)
Fixpoint advance {A} (p : Prog A) (w : World) : Susp A * World * list Event :=
  match p with
  | Ret a => (Finished (Returned a), w, [])
  | Throw t => (Finished (Threw t), w, [])
  | Read c k => advance (k (read c w)) w
  | Write c v k =>
      let '(s, w', evs) := advance k (write c v w) in (s, w', ev_write c v :: evs)
  | NodeEnv k => advance (k (w_node_env w)) w
  | HasWindow k => advance (k (w_window w)) w
  | Now k => advance (k (w_now w)) w
  | Out o k =>
      let '(s, w', evs) := advance k w in (s, w', ev_out o :: evs)
  | Await c k => (Awaiting c k, w, [])
  end.

(** A provider, and a session event that the synchronizer's handler
    receives while the program is suspended at a call, before the answer
    to that call arrives.  (The handler has no [await] of its own.) *)
Definition with_event {P} (respond : ProviderCall -> P -> Outcome * P)
    (handler : Prog unit) : ProviderCall -> World -> P -> Outcome * World * P :=
  fun c w p =>
    let (o, p') := respond c p in
    (o, snd (fst (advance handler w)), p').

(** A pending operation: the call it waits for and its continuation. *)
Inductive Thread : Type :=
| thread {A : Type} (c : ProviderCall) (k : Outcome -> Prog A).

Definition Config : Type := (World * list Thread)%type.

Definition settle {A} (s : Susp A) (pool : list Thread) : list Thread :=
  match s with
  | Finished _ => pool
  | Awaiting c k => thread c k :: pool
  end.

(** The operations that can be started on the client. *)
Inductive Operation : Type :=
| op_initialize
| op_initializeAuth
| op_authEvent (event : string) (session : option Session)
| op_cleanup
| op_signUp (email password : string)
| op_signIn (email password : string)
| op_signOut
| op_setLoading (l : bool)
| op_clearError
| op_headers.

Definition op_type (o : Operation) : Type :=
  match o with
  | op_signUp _ _ | op_signIn _ _ => AuthResponse
  | op_headers => Headers
  | _ => unit
  end.

Definition program (o : Operation) : Prog (op_type o) :=
  match o as o' return Prog (op_type o') with
  | op_initialize => initialize
  | op_initializeAuth => initializeAuthAtom
  | op_authEvent event session => onAuthStateChange event session
  | op_cleanup => cleanup
  | op_signUp em pw => signUpAtom em pw
  | op_signIn em pw => signInAtom em pw
  | op_signOut => signOutAtom
  | op_setLoading l => setLoadingAtom l
  | op_clearError => clearErrorAtom
  | op_headers => headers
  end.

(** One step of the client: either an operation starts and runs to its
    first [await], or the provider answers a pending call (with any
    outcome) and that operation runs on to its next [await].  A step is
    labelled with the events it performs. *)
Inductive step : Config -> list Event -> Config -> Prop :=
| step_start (o : Operation) (w : World) (pool : list Thread) s w' evs :
    advance (program o) w = (s, w', evs) ->
    step (w, pool) evs (w', settle s pool)
| step_answer {A} (c : ProviderCall) (k : Outcome -> Prog A) (o : Outcome)
    (w : World) (pool1 pool2 : list Thread) s w' evs :
    advance (k o) w = (s, w', evs) ->
    step (w, (pool1 ++ thread c k :: pool2)%list) (ev_call c o :: evs)
         (w', settle s (pool1 ++ pool2)%list).

(** The world at application start-up. *)
Definition initial (w : World) : Prop :=
  w_store w = authState_init /\
  w_initializingRef w = false /\
  w_isMounted w = true.

Inductive reachable : Config -> Prop :=
| reachable_initial w : initial w -> reachable (w, [])
| reachable_step cfg evs cfg' : reachable cfg -> step cfg evs cfg' -> reachable cfg'.

(** [preserves I p w]: started in world [w], every write of [p] leaves the
    store in [I], whatever the provider answers and whatever [I]-state the
    store is in when [p] resumes. *)
Fixpoint preserves (I : AuthState -> Prop) {A} (p : Prog A) (w : World) : Prop :=
  match p with
  | Ret _ => True
  | Throw _ => True
  | Read c k => preserves I (k (read c w)) w
  | Write c v k => I (w_store (write c v w)) /\ preserves I k (write c v w)
  | NodeEnv k => preserves I (k (w_node_env w)) w
  | HasWindow k => preserves I (k (w_window w)) w
  | Now k => preserves I (k (w_now w)) w
  | Out _ k => preserves I k w
  | Await _ k => forall o w', I (w_store w') -> preserves I (k o) w'
  end.

(** The executable forms of [step]: start an operation; answer the
    pending call at the head of the pool. *)
Definition start (o : Operation) (cfg : Config) : Config :=
  let '(s, w', _) := advance (program o) (fst cfg) in (w', settle s (snd cfg)).

Definition answer (o : Outcome) (cfg : Config) : Config :=
  match snd cfg with
  | thread _ k :: pool =>
      let '(s, w', _) := advance (k o) (fst cfg) in (w', settle s pool)
  | [] => cfg
  end.

Definition thread_preserves (I : AuthState -> Prop) (t : Thread) : Prop :=
  match t with
  | thread _ k => forall o w, I (w_store w) -> preserves I (k o) w
  end.

(** The two invariants of the store. *)
Definition authenticated_has_user (s : AuthState) : Prop :=
  isAuthenticated s = true -> user s <> None.

Definition loading_has_no_error (s : AuthState) : Prop :=
  loading s = true -> error s = None.

(* ================================================================= *)
(** ** Concrete inputs *)

(** The browser at application start-up. *)
Definition world0 : World :=
  {| w_store := authState_init; w_initializingRef := false; w_isMounted := true;
     w_href := "/katamari"; w_window := true; w_node_env := "production";
     w_now := 0 |}.

(** The browser after a sign-out. *)
Definition world_logged_out : World :=
  {| w_store := logged_out_state None; w_initializingRef := false;
     w_isMounted := true; w_href := "/katamari"; w_window := true;
     w_node_env := "production"; w_now := 0 |}.

Definition alice : SupabaseUser :=
  {| su_id := "u-1"; su_email := Some "alice@example.com";
     su_metadata_name := None |}.

(** The user derived for [alice]. *)
Definition alice_user : User :=
  {| id := "u-1"; email := Some "alice@example.com"; name := Some "alice" |}.



Definition alice_session : Session :=
  {| session_user := Some alice; access_token := "tok" |}.

(** The provider answers with a user and a session. *)
Definition with_session : Response :=
  {| data_user := Some alice; data_session := Some alice_session;
     resp_error := None |}.

(** The provider answers with a user and no session (confirmation pending). *)
Definition without_session : Response :=
  {| data_user := Some alice; data_session := None; resp_error := None |}.

(** The provider answers with nothing at all. *)
Definition nothing : Response :=
  {| data_user := None; data_session := None; resp_error := None |}.

(** The provider answers with an error. *)
Definition failed_with (msg : string) : Response :=
  {| data_user := None; data_session := None;
     resp_error := Some {| ae_message := msg |} |}.

(** An RPC failure with the given code. *)
Definition trpc_error (code : string) : RpcError :=
  {| is_TRPCClientError := true; data_code := Some code; rpc_message := code |}.

(* ================================================================= *)
(** ** More of the client: retry policy, [useAuth], the forms' handlers *)

(** [queryClientConfig.defaultOptions.queries.retry] of the tRPC client:
    [if (error?.data?.code === 'UNAUTHORIZED') return false; return failureCount < 1]. *)
Definition retry (failureCount : nat) (error : RpcError) : bool :=
  match data_code error with
  | Some c => if c =? "UNAUTHORIZED" then false else Nat.ltb failureCount 1
  | None => Nat.ltb failureCount 1
  end.

(** What the link hands to its observer for an emission of the next link. *)
Definition forwarded (e : Emission) : Output :=
  match e with
  | em_next value => observer_next value
  | em_error err => observer_error err
  | em_complete => observer_complete
  end.

(** [getSession] of the [useAuth] hook.  The callback closes over
    [authState.user] as it was at render time; that value is the argument. *)
Definition useAuth_getSession (user : option User) : Prog (option string * option User) :=
  r <- await getSession ;;
  match session_access_token (data_session r), user with
  | Some token, Some u => Ret (Some token, Some u)
  | _, _ => Ret (None, None)
  end.

(** What a handler of a component did to its surroundings, in order:
    the React Query cache, the router, its own [error] state, and the
    [onSuccess] prop.  The handlers below return this list. *)
Inductive UiEffect : Type :=
| queryClient_clear
| router_push (path : string)
| setError (message : option string)
| onSuccess.

(** [handleLogout] of the [Header] component:
    [try { queryClient.clear(); await signOut(); router.push('/') }
     catch (error) { console.error('Logout error:', error) }]. *)
Definition handleLogout : Prog (list UiEffect) :=
  try_catch
    (signOutAtom ;;
     Ret [queryClient_clear; router_push "/"])
    (fun _ =>
       console_error "Logout error:" ;;
       Ret [queryClient_clear]).

(** [err.message], read without [?.]: on [null] or [undefined] the read
    itself throws a [TypeError]. *)
Definition message_of (err : Thrown) : Prog (option string) :=
  match err with
  | ThrownNull => Throw (TypeError_reading true "message")
  | ThrownUndefined => Throw (TypeError_reading false "message")
  | _ => Ret (thrown_message err)
  end.

(** [handleSubmit] of [LoginForm]:
    [setError(null); try { await signIn({ email, password }); onSuccess?.() }
     catch (err) { setError(err.message) }].
    It returns the effects it performed, in order, and the value thrown
    out of the handler, if any: the [catch] block is not itself guarded,
    so a throw while reading [err.message] leaves the handler after
    [setError(null)] alone. *)
Definition LoginForm_handleSubmit (email password : string)
  : Prog (list UiEffect * option Thrown) :=
  try_catch
    (signInAtom email password ;;
     Ret ([setError None; onSuccess], None))
    (fun err =>
       try_catch
         (message <- message_of err ;;
          Ret ([setError None; setError message], None))
         (fun uncaught => Ret ([setError None], Some uncaught))).

(* ================================================================= *)
(** ** The task board: [src/hooks/useTasks.ts] and [DependencyPicker] *)

Inductive TaskStatus : Type := todo | in_progress | done.

Inductive Priority : Type := priority_1 | priority_2 | priority_3 | priority_4 | priority_5.

Inductive ObjectType : Type :=
| paperclip | stapler | mug | pen | monitor | keyboard | mouse | notebook.

Definition TaskStatus_eqb (a b : TaskStatus) : bool :=
  match a, b with
  | todo, todo | in_progress, in_progress | done, done => true
  | _, _ => false
  end.

(** [Task] of [types/tasks.ts].  The code below never computes with the
    numeric fields ([position], [createdAt], [strength]); their type is a
    parameter. *)
Record Task (Num : Type) : Type := mkTask {
  task_id : string;
  title : string;
  description : option string;
  priority : Priority;
  completed : bool;
  objectType : ObjectType;
  position : Num * Num * Num;
  createdAt : Num;
  status : TaskStatus;
  dependsOn : list string;
  section : option string;
  strength : Num
}.
Arguments mkTask {Num}.
Arguments task_id {Num}.
Arguments title {Num}.
Arguments description {Num}.
Arguments priority {Num}.
Arguments completed {Num}.
Arguments objectType {Num}.
Arguments position {Num}.
Arguments createdAt {Num}.
Arguments status {Num}.
Arguments dependsOn {Num}.
Arguments section {Num}.
Arguments strength {Num}.

(** [{ ...t, status: newStatus }] *)
Definition with_status {Num} (t : Task Num) (newStatus : TaskStatus) : Task Num :=
  {| task_id := task_id t; title := title t; description := description t;
     priority := priority t; completed := completed t;
     objectType := objectType t; position := position t;
     createdAt := createdAt t; status := newStatus;
     dependsOn := dependsOn t; section := section t; strength := strength t |}.

(** [tasks.find(t => t.id === id)] *)
Definition find_task {Num} (tasks : list (Task Num)) (id : string) : option (Task Num) :=
  find (fun t => task_id t =? id) tasks.

(** [updateTaskStatus]: the list handed to [setTasks]. *)
Definition updateTaskStatus {Num} (tasks : list (Task Num)) (id : string)
    (newStatus : TaskStatus) : list (Task Num) :=
  map (fun t => if task_id t =? id then with_status t newStatus else t) tasks.

(** [canMoveToInProgress]: [{ can, blockedBy }]. *)
Definition canMoveToInProgress {Num} (tasks : list (Task Num)) (taskId : string)
  : bool * list string :=
  match find_task tasks taskId with
  | None => (false, [])
  | Some task =>
      let blockedBy :=
        filter (fun depId =>
                  match find_task tasks depId with
                  | Some depTask => negb (TaskStatus_eqb (status depTask) done)
                  | None => true            (* undefined !== 'done' *)
                  end)
               (dependsOn task) in
      (Nat.eqb (List.length blockedBy) 0, blockedBy)
  end.

(** [deleteTask]: the list handed to [setTasks]. *)
Definition deleteTask {Num} (tasks : list (Task Num)) (id : string) : list (Task Num) :=
  filter (fun t => negb (task_id t =? id)) tasks.

Definition getTasksByStatus {Num} (tasks : list (Task Num)) (s : TaskStatus)
  : list (Task Num) :=
  filter (fun t => TaskStatus_eqb (status t) s) tasks.

Definition getIncompleteTasks {Num} (tasks : list (Task Num)) : list (Task Num) :=
  filter (fun t => negb (completed t)) tasks.

Definition getCompletedTasks {Num} (tasks : list (Task Num)) : list (Task Num) :=
  filter (fun t => completed t) tasks.

(** [availableTasks] of [DependencyPicker]:
    [tasks.filter(t => t.status !== 'done' && t.id !== excludeTaskId)]. *)
Definition availableTasks {Num} (tasks : list (Task Num)) (excludeTaskId : option string)
  : list (Task Num) :=
  filter (fun t => negb (TaskStatus_eqb (status t) done) &&
                   match excludeTaskId with
                   | Some x => negb (task_id t =? x)
                   | None => true
                   end)
         tasks.

(** [handleToggle] of [DependencyPicker]: the list handed to
    [onDependenciesChange]. *)
Definition handleToggle (selectedDependencies : list string) (taskId : string)
    (checked : bool) : list string :=
  if checked then (selectedDependencies ++ [taskId])%list
  else filter (fun id => negb (id =? taskId)) selectedDependencies.

(** The store after a failed attempt: as before it, with [loading] off
    and no error. *)
Definition after_failed_attempt (s : AuthState) : AuthState :=
  {| isAuthenticated := isAuthenticated s; user := user s; loading := false;
     error := None; loggingOut := loggingOut s |}.

(** [ends_not_logging_out p w]: however the provider answers and
    whatever the world is when [p] resumes, [p] finishes with
    [loggingOut = false]. *)
Fixpoint ends_not_logging_out {A} (p : Prog A) (w : World) : Prop :=
  match p with
  | Ret _ => loggingOut (w_store w) = false
  | Throw _ => loggingOut (w_store w) = false
  | Read c k => ends_not_logging_out (k (read c w)) w
  | Write c v k => ends_not_logging_out k (write c v w)
  | NodeEnv k => ends_not_logging_out (k (w_node_env w)) w
  | HasWindow k => ends_not_logging_out (k (w_window w)) w
  | Now k => ends_not_logging_out (k (w_now w)) w
  | Out _ k => ends_not_logging_out k w
  | Await _ k => forall o w', ends_not_logging_out (k o) w'
  end.

(** [logging_out_is_owned b0 p w]: in each uninterrupted piece of [p],
    [loggingOut] is on at the end only if it was on at the start ([b0])
    or the rest of [p] is bound to turn it off. *)
Fixpoint logging_out_is_owned (b0 : bool) {A} (p : Prog A) (w : World) : Prop :=
  match p with
  | Ret _ => loggingOut (w_store w) = true -> b0 = true
  | Throw _ => loggingOut (w_store w) = true -> b0 = true
  | Read c k => logging_out_is_owned b0 (k (read c w)) w
  | Write c v k => logging_out_is_owned b0 k (write c v w)
  | NodeEnv k => logging_out_is_owned b0 (k (w_node_env w)) w
  | HasWindow k => logging_out_is_owned b0 (k (w_window w)) w
  | Now k => logging_out_is_owned b0 (k (w_now w)) w
  | Out _ k => logging_out_is_owned b0 k w
  | Await _ k =>
      (loggingOut (w_store w) = true ->
       b0 = true \/ forall o w', ends_not_logging_out (k o) w') /\
      (forall o w', logging_out_is_owned (loggingOut (w_store w')) (k o) w')
  end.

Definition thread_clears (t : Thread) : Prop :=
  match t with
  | thread _ k => forall o w, ends_not_logging_out (k o) w
  end.

Definition thread_owned (t : Thread) : Prop :=
  match t with
  | thread _ k => forall o w, logging_out_is_owned (loggingOut (w_store w)) (k o) w
  end.

(** No ['@'] in a string. *)
Definition no_at (s : string) : bool :=
  forallb (fun c => negb (Ascii.eqb c "@"%char)) (list_ascii_of_string s).

(** A task for the examples. *)
Definition a_task (id : string) (s : TaskStatus) (deps : list string) : Task nat :=
  {| task_id := id; title := id; description := None; priority := priority_3;
     completed := false; objectType := mug; position := (0, 2, 0);
     createdAt := 0; status := s; dependsOn := deps; section := None;
     strength := 5 |}.

(* ================================================================= *)
(** * Properties *)

(** A call found in a list of calls given explicitly is one of them. *)
Ltac only_call :=
  repeat match goal with
  | H : In _ _ |- _ => cbn in H
  | H : False |- _ => destruct H
  | H : (_, _) = (_, _) \/ _ |- _ => destruct H as [H|H]
  | H : (_, _) = (_, _) |- _ => inversion H; subst; clear H
  end.

(** ** Sign-out *)

Section SignOut.

Variable E : Type.
Variable env : ProviderCall -> World -> E -> Outcome * World * E.

Ltac answer :=
  match goal with
  | |- context [env ?c ?w ?e] =>
      let o := fresh "o" in
      let w' := fresh "w" in
      let e' := fresh "e" in
      destruct (env c w e) as [[o w'] e']; destruct o as [?r|?t]; cbn
  end.

Ltac branch :=
  match goal with
  | |- context [match resp_error ?r with _ => _ end] => destruct (resp_error r); cbn
  | |- context [match data_session ?r with _ => _ end] => destruct (data_session r); cbn
  | |- context [if ?b then _ else _] => destruct b; cbn
  end.

(** C3. The sign-out orchestration, whatever the provider answers at
    each call and whatever happens to the world while it is suspended,
    returns normally (it never throws to its caller); its first action
    is the store write that sets [loggingOut] to true, its last action
    is the store write of the fully logged-out snapshot, and that
    snapshot is the store when it returns. *)
Theorem signOut_always_ends_logged_out (w : World) (e : E) :
  let r := run env signOutAtom w e in
  result r = Returned tt /\
  w_store (world r) =
    {| isAuthenticated := false; user := None; loading := false;
       error := None; loggingOut := false |} /\
  hd_error (events r) = Some (ev_write authStateAtom (logging_out (w_store w))) /\
  loggingOut (logging_out (w_store w)) = true /\
  last (events r) (ev_out observer_complete) =
    ev_write authStateAtom
      {| isAuthenticated := false; user := None; loading := false;
         error := None; loggingOut := false |}.
Proof.
  cbn. repeat (first [answer | branch]); repeat split; reflexivity.
Qed.

(** The provider calls of a sign-out have one of four shapes. *)
Lemma signOut_calls_shape (w : World) (e : E) :
  let r := run env signOutAtom w e in
  let calls := provider_calls (events r) in
  (exists t, calls = [(signOut "global", Rejected t)] /\ warnings (events r) = [])
  \/ (exists r1 t,
        calls = [(signOut "global", Resolved r1); (getSession, Rejected t)] /\
        warnings (events r) = [])
  \/ (exists r1 r2,
        calls = [(signOut "global", Resolved r1); (getSession, Resolved r2)] /\
        data_session r2 = None /\ warnings (events r) = [])
  \/ (exists r1 r2 s o3,
        calls = [(signOut "global", Resolved r1); (getSession, Resolved r2);
                 (signOut "global", o3)] /\
        data_session r2 = Some s /\
        warnings (events r) =
          ["[Auth] Session still exists after signOut! This should not happen.";
           "[Auth] Session ID:"]).
Proof.
  cbn.
  destruct (env (signOut "global") _ e) as [[o1 w1] e1].
  destruct o1 as [r1|t1]; cbn.
  2: { left. eexists. split; reflexivity. }
  right.
  destruct (resp_error r1); cbn;
    destruct (env getSession w1 e1) as [[o2 w2] e2];
    destruct o2 as [r2|t2]; cbn;
    try (left; do 2 eexists; split; reflexivity);
    right;
    (destruct (data_session r2) as [s|] eqn:Hs; cbn;
     [ right; destruct (env (signOut "global") w2 e2) as [[o3 w3] e3];
       exists r1, r2, s, o3; destruct o3; cbn; repeat split; auto
     | left; exists r1, r2;
       destruct (w_node_env w2 =? "development"); cbn; repeat split; auto ]).
Qed.

(** C9. After the provider sign-out call has returned (with or without
    an error), the orchestration queries the provider session exactly
    once; it calls provider sign-out a second time if and only if that
    query returned a non-null session, and then logs a warning; there is
    never a second query nor a third sign-out call. *)
Theorem signOut_verifies_once_retries_at_most_once (w : World) (e : E) :
  let r := run env signOutAtom w e in
  let calls := provider_calls (events r) in
  (exists o1, hd_error calls = Some (signOut "global", o1)) /\
  (forall r1, hd_error calls = Some (signOut "global", Resolved r1) ->
     exists o2, nth_error calls 1 = Some (getSession, o2) /\
                length (filter is_getSession calls) = 1) /\
  length (filter is_getSession calls) <= 1 /\
  (length (filter is_signOut calls) = 2 <->
     exists r2 s, In (getSession, Resolved r2) calls /\ data_session r2 = Some s) /\
  (length (filter is_signOut calls) = 2 ->
     (exists o3, nth_error calls 2 = Some (signOut "global", o3)) /\
     warnings (events r) <> []) /\
  (length (filter is_signOut calls) = 1 \/ length (filter is_signOut calls) = 2) /\
  length calls <= 3.
Proof.
  intros r calls.
  pose proof (signOut_calls_shape w e) as H.
  cbv zeta in H. fold r in H. fold calls in H.
  clearbody calls. clearbody r.
  destruct H as
    [(t & Hc & Hw) | [(r1 & t & Hc & Hw) | [(r1 & r2 & Hc & Hs & Hw)
                                           | (r1 & r2 & s & o3 & Hc & Hs & Hw)]]];
    subst calls; rewrite Hw; cbn;
    repeat split; eauto; try lia; try discriminate;
    try (intros; discriminate);
    try (intros; eexists; split; reflexivity);
    try (intros (r' & s' & Hin & Hs'); cbn in Hin;
         repeat (destruct Hin as [Hin|Hin]; try discriminate; try contradiction);
         congruence).
  intros _. exists r2, s. split; [right; left; reflexivity | assumption].
Qed.

End SignOut.

(** ** The request authorization interceptor *)

Section Interceptor.

Variable E : Type.
Variable env : ProviderCall -> World -> E -> Outcome * World * E.

(** C1. The header decision of [headers], for any provider and any
    world.  (1) Store authenticated: the provider is asked for the
    session once; a present token is attached as
    [authorization: Bearer <token>], an absent one yields no header and
    no failure.  (2) Store not authenticated but loading: the same.
    (3) Store neither authenticated nor loading: no header, and the
    provider is not even asked, so no provider state can put a token on
    the request. *)
Theorem headers_three_state_table (w : World) (e : E) :
  let r := run env headers w e in
  (isAuthenticated (w_store w) = true \/
   (isAuthenticated (w_store w) = false /\ loading (w_store w) = true) ->
     (exists o, provider_calls (events r) = [(getSession, o)]) /\
     (forall resp s,
        In (getSession, Resolved resp) (provider_calls (events r)) ->
        data_session resp = Some s -> truthy (access_token s) = true ->
        result r = Returned [("authorization", "Bearer " ++ access_token s)]) /\
     (forall resp,
        In (getSession, Resolved resp) (provider_calls (events r)) ->
        session_access_token (data_session resp) = None ->
        result r = Returned [])) /\
  (isAuthenticated (w_store w) = false /\ loading (w_store w) = false ->
     result r = Returned [] /\
     provider_calls (events r) = [] /\
     forall ev, In ev (events r) -> exists msg, ev = ev_out (console c_log msg)).
Proof.
  cbn. split.
  - intros Hst.
    assert (Htok : forall resp s,
              data_session resp = Some s -> truthy (access_token s) = true ->
              session_access_token (data_session resp) = Some (access_token s)).
    { intros resp s Hs Ht. unfold session_access_token. now rewrite Hs, Ht. }
    destruct Hst as [Ha | [Ha Hl]]; rewrite Ha; try rewrite Hl; cbn;
      destruct (w_node_env w =? "development"); cbn;
      destruct (env getSession w e) as [[[resp|t] w1] e1]; cbn;
      try destruct (session_access_token (data_session resp)) as [token|] eqn:Hresp;
      cbn; try destruct (w_node_env w1 =? "development"); cbn;
      (split; [eexists; reflexivity|]);
      (split;
       [ intros resp' s' [Hin|[]] Hs Ht; try discriminate;
         injection Hin as <-; rewrite (Htok _ _ Hs Ht) in Hresp;
         try discriminate; injection Hresp as <-; reflexivity
       | intros resp' [Hin|[]] Hnone; try discriminate;
         injection Hin as <-; rewrite Hnone in Hresp;
         try discriminate; reflexivity ]).
  - intros [-> ->]. cbn.
    destruct (w_node_env w =? "development"); cbn; repeat split; try reflexivity.
    + intros ev [<-|[]]. eauto.
    + intros ev [].
Qed.

End Interceptor.

(** ** Initialization *)

Section Initialization.

Variable E : Type.
Variable env : ProviderCall -> World -> E -> Outcome * World * E.

(** C6 (amended). When the start-up session lookup fails, initialization
    returns normally with [isAuthenticated = false], [user = null],
    [loading = false] and a non-null [error]: the message of the error
    the provider returned; or the message of the thrown value when it
    has a non-empty one; or, for a thrown value with no message or an
    empty one, the fixed text ['Authentication initialization failed'].
    On every path, failing or not, the final store has [loading = false]. *)
Theorem initialization_failure_resolves (w : World) (e : E) :
  let r := run env initializeAuthAtom w e in
  let calls := provider_calls (events r) in
  let failed msg :=
    w_store (world r) =
      {| isAuthenticated := false; user := None; loading := false;
         error := Some msg; loggingOut := false |} in
  result r = Returned tt /\
  loading (w_store (world r)) = false /\
  (exists o, calls = [(getSession, o)]) /\
  (forall resp err,
     In (getSession, Resolved resp) calls -> resp_error resp = Some err ->
     failed (ae_message err)) /\
  (forall t m,
     In (getSession, Rejected t) calls ->
     thrown_message t = Some m -> m <> "" ->
     failed m) /\
  (forall t,
     In (getSession, Rejected t) calls ->
     thrown_message t = None \/ thrown_message t = Some "" ->
     failed "Authentication initialization failed").
Proof.
  cbn.
  destruct (env getSession _ e) as [[[resp|t] w1] e1]; cbn.
  - destruct (resp_error resp) as [err|] eqn:Herr; cbn;
      [| destruct (session_user_opt (data_session resp)) as [su|]; cbn;
         [ unfold user_literal; destruct (toUser su); cbn |] ];
      repeat split; eauto; intros; only_call;
      unfold logged_out_state, authenticated_state; congruence.
  - repeat split; eauto; intros; only_call.
    + unfold init_failure_message, truthy.
      match goal with H : thrown_message _ = _ |- _ => rewrite H end.
      destruct (String.eqb_spec m ""); [contradiction | reflexivity].
    + unfold init_failure_message.
      match goal with H : _ \/ _ |- _ => destruct H as [-> | ->] end; reflexivity.
Qed.

End Initialization.

(** ** Sign-up and sign-in *)


Section Credentials.

Variable P : Type.
Variable respond : ProviderCall -> P -> Outcome * P.


End Credentials.

(** ** The session synchronizer *)

(** C7. A provider event that reaches the handler while the re-entrancy
    flag is set is dropped: the handler returns at once, performs no event
    at all (in particular no store write) and leaves the world as it was.
    And the flag is set whenever initialization is in flight: started with
    the flag clear, [initialize] suspends at its session lookup with the
    flag set, so an event delivered at that point changes nothing, and
    initialization with an event delivered during its lookup runs exactly
    as initialization alone: the store is written by the lookup only. *)
Theorem event_during_initialization_is_dropped
    (w : World) (event : string) (session : option Session) :
  (w_initializingRef w = true ->
     advance (onAuthStateChange event session) w = (Finished (Returned tt), w, [])) /\
  (w_initializingRef w = false ->
     exists k w1 evs,
       advance initialize w = (Awaiting getSession k, w1, evs) /\
       w_initializingRef w1 = true /\
       advance (onAuthStateChange event session) w1 = (Finished (Returned tt), w1, [])) /\
  (w_initializingRef w = false ->
     forall (P : Type) (respond : ProviderCall -> P -> Outcome * P) (p : P),
       run (with_event respond (onAuthStateChange event session)) initialize w p =
       run (quiet respond) initialize w p).
Proof.
  split; [|split].
  - intros H. cbn. rewrite H. rewrite orb_true_r. reflexivity.
  - intros H. cbn. rewrite H. cbn.
    do 3 eexists. split; [reflexivity|]. cbn. split; [reflexivity|].
    rewrite orb_true_r. reflexivity.
  - intros H P respond p. cbn. rewrite H. cbn.
    unfold with_event, quiet. cbn. rewrite orb_true_r.
    destruct (respond getSession p) as [[r|t] p']; cbn;
      [ destruct (resp_error r); cbn;
        [| destruct (session_user_opt (data_session r)) as [su|]; cbn;
           [ unfold user_literal; destruct (toUser su); cbn |] ] | ];
      destruct (w_isMounted w); reflexivity.
Qed.

(** ** The server: context builder and guard *)


Section Server.

Variable E : Type.
Variable env : ProviderCall -> World -> E -> Outcome * World * E.


End Server.

(** ** The global error interceptor *)

Lemma redirects_app (l1 l2 : list Event) :
  redirects (l1 ++ l2)%list = (redirects l1 ++ redirects l2)%list.
Proof.
  induction l1 as [|ev l1 IH]; cbn; [reflexivity|].
  destruct ev as [R c v| |]; auto.
  destruct c; cbn; auto. now rewrite IH.
Qed.

Lemma observed_app (l1 l2 : list Event) :
  observed (l1 ++ l2)%list = (observed l1 ++ observed l2)%list.
Proof.
  induction l1 as [|ev l1 IH]; cbn; [reflexivity|].
  destruct ev as [R c v| |o]; auto.
  destruct o; cbn; auto; now rewrite IH.
Qed.

Section ErrorLink.

Variable E : Type.
Variable env : ProviderCall -> World -> E -> Outcome * World * E.

(** Running [p] and then [f] on its value is running [bind p f]. *)
Lemma run_bind {A B} (p : Prog A) (f : A -> Prog B) (w : World) (e : E) :
  run env (bind p f) w e =
  let r1 := run env p w e in
  match result r1 with
  | Returned a =>
      let r2 := run env (f a) (world r1) (environment r1) in
      mkRan (result r2) (world r2) (environment r2) (events r1 ++ events r2)%list
  | Threw t => mkRan (Threw t) (world r1) (environment r1) (events r1)
  end.
Proof.
  revert w e.
  induction p as [a|t|R c k IH|R c v k IH|k IH|k IH|k IH|o k IH|c k IH];
    intros w e; cbn; auto.
  - destruct (run env (f a) w e); reflexivity.
  - rewrite IH. cbn. destruct (result (run env k (write c v w) e)); reflexivity.
  - rewrite IH. cbn. destruct (result (run env k w e)); reflexivity.
  - destruct (env c w e) as [[o w'] e']. rewrite IH. cbn.
    destruct (result (run env (k o) w' e')); reflexivity.
Qed.

(** What the error callback of the link does with one error. *)
Lemma errorLink_error (err : RpcError) (w : World) (e : E) :
  let r := run env (errorLink (em_error err)) w e in
  result r = Returned tt /\
  environment r = e /\
  world r = (if is_unauthorized err && w_window w
             then write location_href "/" w else w) /\
  redirects (events r) = (if is_unauthorized err && w_window w then ["/"] else []) /\
  observed (events r) = [observer_error err].
Proof.
  destruct w as [st ref mounted href win node_env now]. cbn.
  destruct (node_env =? "development") eqn:Hdev, (is_unauthorized err), win;
    cbn; rewrite ?Hdev; cbn; repeat split; reflexivity.
Qed.

Lemma same_tick_errors (errs : list RpcError) (w : World) (e : E) :
  let r := run env (same_tick (map em_error errs)) w e in
  result r = Returned tt /\
  w_window (world r) = w_window w /\
  w_href (world r) =
    (if w_window w && existsb is_unauthorized errs then "/" else w_href w) /\
  redirects (events r) =
    (if w_window w then repeat "/" (length (filter is_unauthorized errs)) else []) /\
  observed (events r) = map observer_error errs.
Proof.
  revert w e. induction errs as [|err errs IH]; intros w e.
  - cbn. rewrite andb_false_r. destruct (w_window w); auto.
  - cbn [map same_tick]. rewrite run_bind.
    destruct (errorLink_error err w e) as (Hres & Henv & Hw & Hred & Hobs).
    cbv zeta. rewrite Hres, Henv, Hw. cbn [result world environment events].
    rewrite redirects_app, observed_app, Hred, Hobs.
    set (w1 := if is_unauthorized err && w_window w
               then write location_href "/" w else w).
    assert (Hwin1 : w_window w1 = w_window w)
      by (subst w1; destruct (is_unauthorized err && w_window w); reflexivity).
    destruct (IH w1 e) as (IHres & IHwin & IHhref & IHred & IHobs).
    rewrite IHres, IHwin, IHhref, IHred, IHobs, Hwin1.
    cbn [existsb filter]. subst w1.
    destruct (is_unauthorized err), (w_window w); cbn;
      repeat split; try reflexivity.
    destruct (existsb is_unauthorized errs); reflexivity.
Qed.

(** C4 (amended). The error link redirects once per failed call, not
    once per tick: with a window present, N calls that all fail with
    UNAUTHORIZED in the same tick perform N assignments of ['/'] to
    [window.location.href], all with the same target, so the location
    ends at ['/'] (for N >= 1).  Errors with any other code perform no
    redirect and leave the location alone.  In every case each error is
    handed to its observer unmodified, in order, and the link itself
    never fails. *)
Theorem errorLink_redirects_per_unauthorized_error
    (errs : list RpcError) (w : World) (e : E) :
  let r := run env (same_tick (map em_error errs)) w e in
  result r = Returned tt /\
  observed (events r) = map observer_error errs /\
  (w_window w = true ->
     (forall err, In err errs -> is_unauthorized err = true) ->
     redirects (events r) = repeat "/" (length errs) /\
     (1 <= length errs -> w_href (world r) = "/")) /\
  ((forall err, In err errs -> is_unauthorized err = false) ->
     redirects (events r) = [] /\ w_href (world r) = w_href w).
Proof.
  intros r.
  destruct (same_tick_errors errs w e) as (Hres & _ & Hhref & Hred & Hobs).
  fold r in Hres, Hhref, Hred, Hobs.
  split; [exact Hres|]. split; [exact Hobs|]. split.
  - intros Hwin Hall.
    assert (Hf : filter is_unauthorized errs = errs).
    { clear -Hall. induction errs as [|x l IH]; cbn; [reflexivity|].
      rewrite (Hall x (or_introl eq_refl)). f_equal. apply IH.
      intros y Hy. apply Hall. now right. }
    split.
    + now rewrite Hred, Hwin, Hf.
    + intros Hlen. rewrite Hhref, Hwin. cbn.
      destruct errs as [|x l]; [cbn in Hlen; lia|].
      cbn. now rewrite (Hall x (or_introl eq_refl)).
  - intros Hnone.
    assert (Hf : filter is_unauthorized errs = [] /\
                 existsb is_unauthorized errs = false).
    { clear -Hnone. induction errs as [|x l IH]; cbn; [split; reflexivity|].
      rewrite (Hnone x (or_introl eq_refl)). apply IH.
      intros y Hy. apply Hnone. now right. }
    destruct Hf as [Hf Hex]. split.
    + rewrite Hred, Hf. now destruct (w_window w).
    + now rewrite Hhref, Hex, andb_false_r.
Qed.

End ErrorLink.

(** ** Store invariants under interleaving *)

Lemma advance_preserves (I : AuthState -> Prop) {A} (p : Prog A) (w : World) :
  preserves I p w -> I (w_store w) ->
  I (w_store (snd (fst (advance p w)))) /\
  Forall I (store_writes (snd (advance p w))) /\
  Forall (thread_preserves I) (settle (fst (fst (advance p w))) []).
Proof.
  revert w.
  induction p as [a|t|R c k IH|R c v k IH|k IH|k IH|k IH|o k IH|c k IH];
    intros w Hp Hw; cbn in *; auto.
  - destruct Hp as [Hv Hk].
    specialize (IH _ Hk Hv).
    destruct (advance k (write c v w)) as [[s w'] evs]. cbn in *.
    destruct IH as (H1 & H2 & H3). repeat split; auto.
    destruct c; cbn; auto.
  - specialize (IH w Hp Hw).
    destruct (advance k w) as [[s w'] evs]. cbn in *. exact IH.
Qed.

Lemma step_preserves (I : AuthState -> Prop) :
  (forall o w, I (w_store w) -> preserves I (program o) w) ->
  forall cfg evs cfg',
    step cfg evs cfg' ->
    I (w_store (fst cfg)) -> Forall (thread_preserves I) (snd cfg) ->
    I (w_store (fst cfg')) /\ Forall (thread_preserves I) (snd cfg') /\
    Forall I (store_writes evs).
Proof.
  intros Hprog cfg evs cfg' Hstep.
  destruct Hstep as [o w pool s w' evs Hadv | A c k o w pool1 pool2 s w' evs Hadv];
    cbn; intros Hw Hpool.
  - pose proof (advance_preserves I (program o) w (Hprog o w Hw) Hw) as H.
    rewrite Hadv in H. cbn in H. destruct H as (H1 & H2 & H3).
    repeat split; auto.
    destruct s; cbn in *; auto.
    constructor; auto. now inversion H3.
  - apply Forall_app in Hpool as [Hp1 Hp2].
    inversion Hp2 as [|t l Ht Hp2']; subst. cbn in Ht.
    pose proof (advance_preserves I (k o) w (Ht o w Hw) Hw) as H.
    rewrite Hadv in H. cbn in H. destruct H as (H1 & H2 & H3).
    assert (Hrest : Forall (thread_preserves I) (pool1 ++ pool2)%list)
      by (apply Forall_app; auto).
    repeat split; auto.
    destruct s; cbn in *; auto.
    constructor; auto. now inversion H3.
Qed.

Lemma reachable_invariant (I : AuthState -> Prop) :
  I authState_init ->
  (forall o w, I (w_store w) -> preserves I (program o) w) ->
  forall cfg, reachable cfg ->
    I (w_store (fst cfg)) /\ Forall (thread_preserves I) (snd cfg).
Proof.
  intros Hinit Hprog cfg Hreach.
  induction Hreach as [w (Hs & _ & _) | cfg evs cfg' _ IH Hstep].
  - cbn. rewrite Hs. auto.
  - destruct IH as [Hw Hpool].
    destruct (step_preserves I Hprog _ _ _ Hstep Hw Hpool) as (H1 & H2 & _).
    auto.
Qed.

Ltac preserve :=
  repeat (cbn in *;
          match goal with
          | |- True => exact I
          | |- _ /\ _ => split
          | |- forall _, _ => intro
          | |- context [user_literal ?su] =>
              unfold user_literal; destruct (toUser su) eqn:?
          | |- context [match ?x with _ => _ end] => destruct x eqn:?
          end);
  try congruence; auto.

Lemma programs_preserve_authenticated_has_user (o : Operation) (w : World) :
  authenticated_has_user (w_store w) ->
  preserves authenticated_has_user (program o) w.
Proof.
  unfold authenticated_has_user.
  destruct o; intros Hw; preserve.
Qed.

Lemma programs_preserve_loading_has_no_error (o : Operation) (w : World) :
  loading_has_no_error (w_store w) ->
  preserves loading_has_no_error (program o) w.
Proof.
  unfold loading_has_no_error.
  destruct o; intros Hw; preserve.
Qed.

Lemma reachable_start (o : Operation) (cfg : Config) :
  reachable cfg -> reachable (start o cfg).
Proof.
  intros H. destruct cfg as [w pool]. unfold start. cbn [fst snd].
  destruct (advance (program o) w) as [[s w'] evs] eqn:Hadv.
  exact (reachable_step _ _ _ H (step_start o w pool s w' evs Hadv)).
Qed.

Lemma reachable_answer (o : Outcome) (cfg : Config) :
  reachable cfg -> reachable (answer o cfg).
Proof.
  intros H. destruct cfg as [w pool]. unfold answer. cbn [fst snd].
  destruct pool as [|[A c k] pool]; [exact H|].
  destruct (advance (k o) w) as [[s w'] evs] eqn:Hadv.
  exact (reachable_step _ _ _ H (step_answer c k o w [] pool s w' evs Hadv)).
Qed.

(** C5. In every configuration reachable from start-up by starting the
    client's operations (initialization, provider events, sign-up,
    sign-in, sign-out, setLoading, clearError) in any order, and by the
    provider answering their pending calls in any order and with any
    outcome, the store satisfies [isAuthenticated = true => user <> null];
    so does every state that the next step writes to the store. *)
Theorem authenticated_implies_user (cfg : Config) (Hreach : reachable cfg) :
  (isAuthenticated (w_store (fst cfg)) = true -> user (w_store (fst cfg)) <> None) /\
  (forall evs cfg' s,
     step cfg evs cfg' -> In s (store_writes evs) ->
     isAuthenticated s = true -> user s <> None).
Proof.
  assert (Hinit : authenticated_has_user authState_init)
    by (intros H; discriminate H).
  destruct (reachable_invariant authenticated_has_user Hinit
              programs_preserve_authenticated_has_user cfg Hreach) as [Hw Hpool].
  split; [exact Hw|].
  intros evs cfg' s Hstep Hin.
  destruct (step_preserves authenticated_has_user
              programs_preserve_authenticated_has_user _ _ _ Hstep Hw Hpool)
    as (_ & _ & Hall).
  rewrite Forall_forall in Hall. exact (Hall s Hin).
Qed.

(** C8. In every reachable configuration the store satisfies
    [loading = true => error = null], and every state that the next step
    writes to the store satisfies it too: a single write never carries
    [loading = true] together with an error.  The write that turns
    [loading] on, [setLoadingAtom(true)], is one write whose state has
    [loading = true] and [error = null]. *)
Theorem loading_implies_no_error (cfg : Config) (Hreach : reachable cfg) :
  (loading (w_store (fst cfg)) = true -> error (w_store (fst cfg)) = None) /\
  (forall evs cfg' s,
     step cfg evs cfg' -> In s (store_writes evs) ->
     loading s = true -> error s = None) /\
  (exists s,
     store_writes (snd (advance (setLoadingAtom true) (fst cfg))) = [s] /\
     w_store (snd (fst (advance (setLoadingAtom true) (fst cfg)))) = s /\
     loading s = true /\ error s = None).
Proof.
  assert (Hinit : loading_has_no_error authState_init)
    by (intros _; reflexivity).
  destruct (reachable_invariant loading_has_no_error Hinit
              programs_preserve_loading_has_no_error cfg Hreach) as [Hw Hpool].
  split; [exact Hw|]. split.
  - intros evs cfg' s Hstep Hin.
    destruct (step_preserves loading_has_no_error
                programs_preserve_loading_has_no_error _ _ _ Hstep Hw Hpool)
      as (_ & _ & Hall).
    rewrite Forall_forall in Hall. exact (Hall s Hin).
  - cbn. eexists. repeat split.
Qed.

(* ================================================================= *)
(** * The properties at concrete inputs *)

(** Scenario A and Scenario B: the provider holds a session with token
    ["tok"]; the loading store attaches it, the logged-out store does not. *)
Lemma headers_scenarios_A_B :
  result (run (quiet scripted) headers world0 [Resolved with_session]) =
    Returned [("authorization", "Bearer tok")] /\
  result (run (quiet scripted) headers world_logged_out [Resolved with_session]) =
    Returned [].
Proof.
  split.
  - destruct (headers_three_state_table _ (quiet scripted) world0
                [Resolved with_session]) as [H _].
    destruct H as (_ & H & _); [right; split; reflexivity|].
    apply (H with_session alice_session);
      [left; reflexivity | reflexivity | reflexivity].
  - destruct (headers_three_state_table _ (quiet scripted) world_logged_out
                [Resolved with_session]) as [_ H].
    destruct H as (H & _); [split; reflexivity|].
    exact H.
Defined.


(** A bearer token that the provider verifies for [alice]: the context
    carries her identity and the protected [getUser] returns it. *)
Lemma verified_token_is_identified :
  result (run (quiet scripted)
            (handle_request (Some "Bearer valid") getUser_procedure)
            world0 [Resolved without_session]) =
    Returned ({| ctx_user := Some alice_user; ctx_date := 0 |}, proc_ok alice_user).
Proof. reflexivity. Qed.


(** Scenario C: the provider's sign-out call returns an error. *)
Lemma signOut_with_provider_error :
  w_store (world (run (quiet scripted) signOutAtom
                    (snd (fst (advance (setAuthStateAtom (authenticated_state alice_user))
                                 world0)))
                    [Resolved (failed_with "network"); Resolved nothing])) =
    {| isAuthenticated := false; user := None; loading := false;
       error := None; loggingOut := false |}.
Proof.
  exact (proj1 (proj2 (signOut_always_ends_logged_out _ (quiet scripted) _ _))).
Defined.

(** The session is still there after the first sign-out: one retry. *)
Lemma signOut_retries_once :
  map fst (provider_calls (events (run (quiet scripted) signOutAtom world0
                                     [Resolved nothing; Resolved with_session;
                                      Resolved nothing]))) =
    [signOut "global"; getSession; signOut "global"] /\
  length (filter is_signOut
            (provider_calls (events (run (quiet scripted) signOutAtom world0
                                       [Resolved nothing; Resolved with_session;
                                        Resolved nothing])))) = 2.
Proof.
  split; [reflexivity|].
  apply (proj1 (proj2 (proj2 (proj2
           (signOut_verifies_once_retries_at_most_once _ (quiet scripted) world0
              [Resolved nothing; Resolved with_session; Resolved nothing]))))).
  exists with_session, alice_session. split; [right; left; reflexivity | reflexivity].
Defined.

(** C4, counterexample: two calls fail with UNAUTHORIZED in the same tick
    and the link assigns [window.location.href] twice, not once. *)
Lemma two_unauthorized_errors_redirect_twice :
  let errs := [trpc_error "UNAUTHORIZED"; trpc_error "UNAUTHORIZED"] in
  let r := run (quiet scripted) (same_tick (map em_error errs)) world0 [] in
  redirects (events r) = ["/"; "/"] /\
  length (redirects (events r)) <> 1.
Proof.
  cbn. split; [reflexivity | discriminate].
Qed.

Lemma errorLink_three_errors :
  let errs := [trpc_error "UNAUTHORIZED"; trpc_error "UNAUTHORIZED";
               trpc_error "UNAUTHORIZED"] in
  let r := run (quiet scripted) (same_tick (map em_error errs)) world0 [] in
  redirects (events r) = ["/"; "/"; "/"] /\ w_href (world r) = "/".
Proof.
  destruct (errorLink_redirects_per_unauthorized_error _ (quiet scripted)
              [trpc_error "UNAUTHORIZED"; trpc_error "UNAUTHORIZED";
               trpc_error "UNAUTHORIZED"] world0 [])
    as (_ & _ & H & _).
  destruct H as [H1 H2].
  - reflexivity.
  - intros err [<-|[<-|[<-|[]]]]; reflexivity.
  - split; [exact H1 | apply H2; cbn; lia].
Defined.

(** After a completed sign-in the store is authenticated and has a user. *)
Lemma signed_in_has_user :
  let cfg := answer (Resolved with_session)
               (start (op_signIn "alice@example.com" "pw") (world0, [])) in
  isAuthenticated (w_store (fst cfg)) = true /\
  user (w_store (fst cfg)) <> None.
Proof.
  split; [reflexivity|].
  apply (authenticated_implies_user
           (answer (Resolved with_session)
              (start (op_signIn "alice@example.com" "pw") (world0, [])))).
  - apply reachable_answer, reachable_start, reachable_initial.
    repeat split.
  - reflexivity.
Defined.

(** While a sign-in started after a failed initialization is pending,
    the store is loading and shows no error. *)
Lemma pending_sign_in_shows_no_error :
  let cfg := start (op_signIn "alice@example.com" "pw")
               (answer (Rejected (ThrownValue (Some "Failed to fetch")))
                  (start op_initialize (world0, []))) in
  error (w_store (fst (answer (Rejected (ThrownValue (Some "Failed to fetch")))
                         (start op_initialize (world0, []))))) =
    Some "Failed to fetch" /\
  loading (w_store (fst cfg)) = true /\
  error (w_store (fst cfg)) = None.
Proof.
  split; [reflexivity|]. split; [reflexivity|].
  apply (loading_implies_no_error
           (start (op_signIn "alice@example.com" "pw")
              (answer (Rejected (ThrownValue (Some "Failed to fetch")))
                 (start op_initialize (world0, []))))).
  - apply reachable_start, reachable_answer, reachable_start, reachable_initial.
    repeat split.
  - reflexivity.
Defined.

(** C6, counterexample: the lookup throws a value whose message is empty
    (as [new Error()] has); the store's error is the fixed text, not that
    message. *)
Lemma initialization_failure_without_message :
  let t := ThrownValue (Some "") in
  let r := run (quiet scripted) initializeAuthAtom world0 [Rejected t] in
  provider_calls (events r) = [(getSession, Rejected t)] /\
  error (w_store (world r)) = Some "Authentication initialization failed" /\
  error (w_store (world r)) <> thrown_message t.
Proof.
  cbn. repeat split; discriminate.
Qed.

Lemma initialization_failure_scenarios :
  w_store (world (run (quiet scripted) initializeAuthAtom world0
                    [Resolved (failed_with "Failed to fetch")])) =
    logged_out_state (Some "Failed to fetch") /\
  w_store (world (run (quiet scripted) initializeAuthAtom world0
                    [Rejected (ThrownValue None)])) =
    logged_out_state (Some "Authentication initialization failed").
Proof.
  split.
  - destruct (initialization_failure_resolves _ (quiet scripted) world0
                [Resolved (failed_with "Failed to fetch")])
      as (_ & _ & _ & H & _).
    apply (H (failed_with "Failed to fetch") {| ae_message := "Failed to fetch" |});
      [left; reflexivity | reflexivity].
  - destruct (initialization_failure_resolves _ (quiet scripted) world0
                [Rejected (ThrownValue None)])
      as (_ & _ & _ & _ & _ & H).
    apply (H (ThrownValue None)); [left; reflexivity | left; reflexivity].
Defined.

(** An event that arrives while the start-up lookup is pending. *)
Lemma event_mid_initialization :
  let cfg := start op_initialize (world0, []) in
  w_initializingRef (fst cfg) = true /\
  start (op_authEvent "SIGNED_IN" (Some alice_session)) cfg = cfg.
Proof.
  cbv zeta. split; [reflexivity|].
  unfold start at 1. cbn [fst snd program op_type].
  rewrite (proj1 (event_during_initialization_is_dropped
                    (fst (start op_initialize (world0, [])))
                    "SIGNED_IN" (Some alice_session)) eq_refl).
  reflexivity.
Defined.

(** Outside initialization the same event is applied to the store. *)
Lemma event_outside_initialization_is_applied :
  w_store (snd (fst (advance (onAuthStateChange "SIGNED_IN" (Some alice_session))
                       world_logged_out))) =
    authenticated_state alice_user /\
  toUser alice = Some alice_user.
Proof. split; reflexivity. Qed.


(* ================================================================= *)
(** * Further properties of the code *)

(** ** The derived user *)

Lemma split_at_0_local (l d : string) :
  no_at l = true -> split_at_0 (l ++ "@" ++ d) = l.
Proof.
  unfold no_at. induction l as [|c l IH]; cbn; [reflexivity|].
  intros H. apply andb_prop in H as [Hc Hl].
  destruct (Ascii.eqb c "@"%char); [discriminate Hc|].
  f_equal. apply IH, Hl.
Qed.

Lemma split_at_0_whole (s : string) : no_at s = true -> split_at_0 s = s.
Proof.
  unfold no_at. induction s as [|c s IH]; cbn; [reflexivity|].
  intros H. apply andb_prop in H as [Hc Hs].
  destruct (Ascii.eqb c "@"%char); [discriminate Hc|].
  f_equal. apply IH, Hs.
Qed.

Lemma split_at_0_no_at (s : string) : no_at (split_at_0 s) = true.
Proof.
  unfold no_at. induction s as [|c s IH]; cbn; [reflexivity|].
  destruct (Ascii.eqb c "@"%char) eqn:Hc; cbn; [reflexivity|].
  now rewrite Hc.
Qed.

(** X1. The user derived from the provider's user keeps its id and
    email.  Its name is the provider's display name when that is a
    non-empty string; otherwise (no name, or the empty string) it is the
    part of the email before the first ['@'] (the whole email when it has
    no ['@']), and so never contains an ['@'].  No user is derived, and
    building one throws, exactly when the provider's user has no email
    and no non-empty display name. *)
Theorem toUser_name_fallback (u : SupabaseUser) :
  (forall usr, toUser u = Some usr ->
     id usr = su_id u /\ email usr = su_email u) /\
  (forall n, su_metadata_name u = Some n -> n <> "" ->
     toUser u = Some {| id := su_id u; email := su_email u; name := Some n |}) /\
  (su_metadata_name u = None \/ su_metadata_name u = Some "" ->
     (forall em, su_email u = Some em ->
        exists usr,
          toUser u = Some usr /\ id usr = su_id u /\ email usr = Some em /\
          (forall l d, em = l ++ "@" ++ d -> no_at l = true -> name usr = Some l) /\
          (no_at em = true -> name usr = Some em) /\
          (exists n, name usr = Some n /\ no_at n = true)) /\
     (su_email u = None ->
        toUser u = None /\
        result (run (quiet scripted) (user_literal u) world0 []) =
          Threw (TypeError_reading false "split"))) /\
  (toUser u = None <->
   su_email u = None /\
   (su_metadata_name u = None \/ su_metadata_name u = Some "")).
Proof.
  unfold user_literal, toUser, email_local_part.
  destruct u as [i [em|] [[|c n]|]]; cbn [su_id su_email su_metadata_name truthy].
  all: repeat match goal with |- _ /\ _ => split | |- _ <-> _ => split end.
  all: try (intros usr Husr; injection Husr as <-; split; reflexivity).
  all: try (intros n0 Hn Hne; injection Hn as <-; try contradiction; reflexivity).
  all: try discriminate.
  all: try (intros [H|H]; discriminate H).
  all: try (intros [H [H'|H']]; discriminate).
  all: try (intros _; auto; fail).
  all: try (intros _; split; [intros ? H; discriminate H | intros _; split; reflexivity]).
  all: try (cbn; intros; discriminate).
  all: intros _; split; try (intros H; discriminate H).
  all: intros em' Hem; injection Hem as <-; cbn [String.eqb];
    eexists; split; [reflexivity|]; cbn [id email name];
    split; [reflexivity|]; split; [reflexivity|];
    repeat split.
  all: try (intros l d He Hl; rewrite He; now rewrite split_at_0_local).
  all: try (intros Hl; now rewrite split_at_0_whole).
  all: eexists; split; [reflexivity | apply split_at_0_no_at].
Qed.

Lemma toUser_of_alice : toUser alice = Some alice_user.
Proof.
  destruct (toUser_name_fallback alice) as (_ & _ & H & _).
  destruct (H (or_introl eq_refl)) as (H1 & _).
  destruct (H1 "alice@example.com" eq_refl) as (usr & Hto & Hid & Hem & Hl & _).
  specialize (Hl "alice" "example.com" eq_refl eq_refl).
  rewrite Hto. destruct usr as [i e n]. cbn in *. now subst.
Defined.

(** ** Sign-in and sign-up: failures and the store *)

Section CredentialsMore.

Variable P : Type.
Variable respond : ProviderCall -> P -> Outcome * P.

(** X2. Sign-in and sign-up make exactly one provider call, with the
    credentials given.  When that call returns an error, the orchestrator
    throws that error to its caller; when the call itself is rejected, it
    rethrows the rejection.  In both cases nothing is logged and the
    failure is not recorded in the store: the store ends as it was before
    the attempt, with [loading = false] and [error = null]. *)
Theorem credential_failures_are_thrown (w : World) (p : P) (em pw : string) :
  let si := run (quiet respond) (signInAtom em pw) w p in
  let up := run (quiet respond) (signUpAtom em pw) w p in
  (exists o, provider_calls (events si) = [(signInWithPassword em pw, o)]) /\
  (exists o, provider_calls (events up) = [(signUp em pw, o)]) /\
  (forall resp err,
     In (signInWithPassword em pw, Resolved resp) (provider_calls (events si)) ->
     resp_error resp = Some err ->
     result si = Threw (ThrownAuthError err)) /\
  (forall resp err,
     In (signUp em pw, Resolved resp) (provider_calls (events up)) ->
     resp_error resp = Some err ->
     result up = Threw (ThrownAuthError err)) /\
  (forall t, In (signInWithPassword em pw, Rejected t) (provider_calls (events si)) ->
             result si = Threw t) /\
  (forall t, In (signUp em pw, Rejected t) (provider_calls (events up)) ->
             result up = Threw t) /\
  (forall t, result si = Threw t ->
             w_store (world si) = after_failed_attempt (w_store w) /\
             observed (events si) = [] /\ warnings (events si) = [] /\
             forall l msg, ~ In (ev_out (console l msg)) (events si)) /\
  (forall t, result up = Threw t ->
             w_store (world up) = after_failed_attempt (w_store w) /\
             observed (events up) = [] /\ warnings (events up) = [] /\
             forall l msg, ~ In (ev_out (console l msg)) (events up)).
Proof.
  cbn. unfold quiet.
  destruct (respond (signInWithPassword em pw) p) as [[r1|t1] p1];
    destruct (respond (signUp em pw) p) as [[r2|t2] p2]; cbn;
    try destruct (resp_error r1) eqn:He1; try destruct (data_user r1) eqn:Hu1;
    try destruct (data_session r1) eqn:Hs1;
    try destruct (resp_error r2) eqn:He2; try destruct (data_user r2) eqn:Hu2;
    try destruct (data_session r2) eqn:Hs2; cbn;
    unfold user_literal;
    repeat match goal with
           | |- context [toUser ?su] => destruct (toUser su) eqn:?
           end; cbn;
    (split; [eexists; reflexivity|]); (split; [eexists; reflexivity|]);
    repeat match goal with |- _ /\ _ => split end;
    intros; only_call; try congruence; try discriminate; try reflexivity;
    repeat split; try reflexivity;
    intros l msg Hin; cbn in Hin;
    repeat (destruct Hin as [Hin|Hin]; try discriminate Hin); contradiction.
Qed.


End CredentialsMore.

Lemma wrong_password_is_thrown :
  result (run (quiet scripted) (signInAtom "alice@example.com" "wrong") world_logged_out
            [Resolved (failed_with "Invalid login credentials")]) =
    Threw (ThrownAuthError {| ae_message := "Invalid login credentials" |}).
Proof.
  destruct (credential_failures_are_thrown _ scripted world_logged_out
              [Resolved (failed_with "Invalid login credentials")]
              "alice@example.com" "wrong") as (_ & _ & H & _).
  apply (H (failed_with "Invalid login credentials")
           {| ae_message := "Invalid login credentials" |});
    [left; reflexivity | reflexivity].
Defined.


(** ** Start-up and the synchronizer *)

Section StartupMore.

Variable E : Type.
Variable env : ProviderCall -> World -> E -> Outcome * World * E.


End StartupMore.

Section FlagLifecycle.

Variable P : Type.
Variable respond : ProviderCall -> P -> Outcome * P.

(** X5. The life of the re-entrancy flag.  Called while the flag is
    set, [initialize] returns at once without asking the provider and
    without touching the store or the flag.  Started with the flag clear,
    it never throws and ends with the store that [initializeAuthAtom]
    alone produces; if the component is still mounted when the lookup is
    over, the flag is clear again; if the effect's cleanup ran during the
    lookup, the flag is left set, and from then on every session event is
    dropped. *)
Theorem initialize_flag_lifecycle (w : World) (p : P) :
  (w_initializingRef w = true ->
   run (quiet respond) initialize w p = mkRan (Returned tt) w p []) /\
  (w_initializingRef w = false ->
   let r := run (quiet respond) initialize w p in
   let r' := run (with_event respond cleanup) initialize w p in
   result r = Returned tt /\
   w_store (world r) = w_store (world (run (quiet respond) initializeAuthAtom w p)) /\
   (w_isMounted w = true -> w_initializingRef (world r) = false) /\
   result r' = Returned tt /\
   w_isMounted (world r') = false /\
   w_initializingRef (world r') = true /\
   (forall event session,
      advance (onAuthStateChange event session) (world r') =
        (Finished (Returned tt), world r', []))).
Proof.
  split.
  - intros H. cbn. rewrite H. reflexivity.
  - intros H. cbn. rewrite H. cbn. unfold quiet, with_event. cbn.
    destruct (respond getSession p) as [[resp|t] p1]; cbn;
      [ destruct (resp_error resp); cbn;
        [| destruct (session_user_opt (data_session resp)) as [su|]; cbn;
           [ unfold user_literal; destruct (toUser su); cbn |] ] | ];
      destruct (w_isMounted w); cbn; repeat split; try reflexivity;
      intros; discriminate.
Qed.

End FlagLifecycle.

(** X6. The event handler does something exactly when the component is
    mounted and no initialization is in flight: otherwise it performs no
    event at all and leaves the world as it is; when it runs, it never
    asks the provider, never throws, and first logs the event. *)
Theorem event_handler_guard (w : World) (event : string) (session : option Session) :
  let '(s, w', evs) := advance (onAuthStateChange event session) w in
  s = Finished (Returned tt) /\
  provider_calls evs = [] /\
  (w_isMounted w = false \/ w_initializingRef w = true -> w' = w /\ evs = []) /\
  (w_isMounted w = true /\ w_initializingRef w = false ->
     hd_error evs = Some (ev_out (console c_log "Auth state change:"))).
Proof.
  cbn.
  destruct (w_isMounted w), (w_initializingRef w); cbn;
    try (destruct ((event =? "SIGNED_IN") || (event =? "TOKEN_REFRESHED"));
         [| destruct (event =? "SIGNED_OUT"); [| destruct (event =? "USER_UPDATED")]];
         cbn; try destruct (session_user_opt session) as [su|]; cbn;
         try (unfold user_literal; destruct (toUser su); cbn));
    (split; [reflexivity|]); (split; [reflexivity|]);
    (split;
     [ intros [H|H]; try discriminate H; split; reflexivity
     | intros [H1 H2]; try discriminate H1; try discriminate H2; reflexivity ]).
Qed.

(** X7. What a handled event does to the store (component mounted, no
    initialization in flight).  SIGNED_OUT writes the logged-out snapshot
    even when the payload carries a session.  SIGNED_IN, TOKEN_REFRESHED
    and USER_UPDATED write the authenticated snapshot of the payload's
    user, who carries the provider's id and e-mail, and write nothing
    when the payload has no user.  When the payload's user has neither
    an e-mail nor a display name, building the user throws: the handler
    logs the error and only clears [loading], keeping [isAuthenticated],
    [user], [error] and [loggingOut] as they were.  Any other event
    writes nothing.  So every state the handler writes has [loading]
    cleared, and a store that was not authenticated becomes
    authenticated only with a user built from the payload. *)
Theorem handled_event_store_effect
    (w : World) (event : string) (session : option Session) :
  w_isMounted w = true -> w_initializingRef w = false ->
  let evs := snd (advance (onAuthStateChange event session) w) in
  let writes := store_writes evs in
  (event = "SIGNED_OUT" -> writes = [logged_out_state None]) /\
  (event = "SIGNED_IN" \/ event = "TOKEN_REFRESHED" \/ event = "USER_UPDATED" ->
     (forall su u, session_user_opt session = Some su -> toUser su = Some u ->
        writes = [{| isAuthenticated := true; user := Some u; loading := false;
                     error := None; loggingOut := false |}] /\
        id u = su_id su /\ email u = su_email su) /\
     (forall su, session_user_opt session = Some su -> toUser su = None ->
        writes = [{| isAuthenticated := isAuthenticated (w_store w);
                     user := user (w_store w);
                     loading := false;
                     error := error (w_store w);
                     loggingOut := loggingOut (w_store w) |}] /\
        In (ev_out (console c_error "Auth state change error:")) evs) /\
     (session_user_opt session = None -> writes = [])) /\
  (event <> "SIGNED_OUT" -> event <> "SIGNED_IN" ->
   event <> "TOKEN_REFRESHED" -> event <> "USER_UPDATED" -> writes = []) /\
  (forall s, In s writes ->
     loading s = false /\
     (isAuthenticated (w_store w) = false -> isAuthenticated s = true ->
      exists su u, session_user_opt session = Some su /\ toUser su = Some u /\
                   user s = Some u /\ error s = None /\ loggingOut s = false)) /\
  w_store (snd (fst (advance (onAuthStateChange event session) w))) =
    last writes (w_store w).
Proof.
  assert (Hid : forall su u, toUser su = Some u ->
                             id u = su_id su /\ email u = su_email su).
  { intros su u. unfold toUser.
    destruct (match su_metadata_name su with
              | Some n => if truthy n then Some n else email_local_part su
              | None => email_local_part su
              end); intros H; [injection H as <-; split; reflexivity | discriminate H]. }
  intros Hm Hr. cbn. rewrite Hm, Hr. cbn.
  split; [| split; [| split]].
  - intros ->. reflexivity.
  - intros [-> | [-> | ->]]; cbn; (split; [| split]);
      try (intros su u -> Hto; unfold user_literal; rewrite Hto; cbn;
           destruct (Hid _ _ Hto) as [-> ->]; repeat split; reflexivity);
      try (intros su -> Hto; unfold user_literal; rewrite Hto; cbn;
           split; [reflexivity | right; left; reflexivity]);
      intros ->; reflexivity.
  - intros H1 H2 H3 H4.
    apply String.eqb_neq in H1, H2, H3, H4. now rewrite H1, H2, H3, H4.
  - destruct ((event =? "SIGNED_IN") || (event =? "TOKEN_REFRESHED"));
      [| destruct (event =? "SIGNED_OUT"); [| destruct (event =? "USER_UPDATED")]];
      cbn; try destruct (session_user_opt session) as [su|] eqn:Hsu; cbn;
      try (unfold user_literal; destruct (toUser su) as [u|] eqn:Hto; cbn);
      (split; [| reflexivity]); intros st Hin; cbn in Hin;
      try contradiction; destruct Hin as [<-|[]]; cbn;
      (split; [reflexivity|]); intros Hw H; try congruence;
      try discriminate H; eauto 10.
Qed.

(** ** The tRPC client, [useAuth] and the forms *)

Lemma store_writes_app (l1 l2 : list Event) :
  store_writes (l1 ++ l2)%list = (store_writes l1 ++ store_writes l2)%list.
Proof.
  induction l1 as [|ev l1 IH]; cbn; [reflexivity|].
  destruct (store_write ev); cbn; now rewrite IH.
Qed.

Lemma provider_calls_app (l1 l2 : list Event) :
  provider_calls (l1 ++ l2)%list = (provider_calls l1 ++ provider_calls l2)%list.
Proof.
  induction l1 as [|ev l1 IH]; cbn; [reflexivity|].
  destruct ev; cbn; now rewrite IH.
Qed.

Section ClientMore.

Variable E : Type.
Variable env : ProviderCall -> World -> E -> Outcome * World * E.

(** X8. [headers] never writes the store and never redirects.  When the
    provider's session lookup is rejected, [headers] fails with that
    rejection (the request is not sent without a header instead).  When
    it returns, the headers are either empty or exactly one
    [authorization] header carrying ["Bearer "] and a non-empty token. *)
Theorem headers_fail_or_carry_a_token (w : World) (e : E) :
  let r := run env headers w e in
  store_writes (events r) = [] /\
  redirects (events r) = [] /\
  (forall t, In (getSession, Rejected t) (provider_calls (events r)) ->
             result r = Threw t) /\
  (forall hs, result r = Returned hs ->
     hs = [] \/
     exists token, token <> "" /\ hs = [("authorization", "Bearer " ++ token)]).
Proof.
  assert (Htok : forall s token, session_access_token s = Some token -> token <> "").
  { intros [s|] token; cbn; [|discriminate].
    unfold truthy. destruct (String.eqb_spec (access_token s) ""); cbn;
      [discriminate|]. intros H; injection H as <-. assumption. }
  cbn.
  destruct (isAuthenticated (w_store w)); [| destruct (loading (w_store w))]; cbn;
    destruct (w_node_env w =? "development"); cbn;
    try (destruct (env getSession w e) as [[[resp|t] w1] e1]; cbn;
         try (destruct (session_access_token (data_session resp)) as [token|] eqn:Hs;
              cbn; try destruct (w_node_env w1 =? "development"); cbn));
    (split; [reflexivity|]); (split; [reflexivity|]);
    (split;
     [ intros t' Hin; only_call; try contradiction; reflexivity
     | intros hs Hr; try discriminate Hr; injection Hr as <-;
       first [ left; reflexivity
             | right; exists token; split; [exact (Htok _ _ Hs) | reflexivity] ] ]).
Qed.

(** What the link does with one emission of any kind. *)
Lemma errorLink_emission (em : Emission) (w : World) (e : E) :
  let r := run env (errorLink em) w e in
  result r = Returned tt /\
  environment r = e /\
  observed (events r) = [forwarded em] /\
  store_writes (events r) = [] /\
  provider_calls (events r) = [] /\
  w_window (world r) = w_window w /\
  (forall target, In target (redirects (events r)) -> target = "/") /\
  (w_window w = false \/
   match em with em_error err => is_unauthorized err = false | _ => True end ->
   redirects (events r) = [] /\ world r = w).
Proof.
  destruct w as [st ref mounted href win node_env now].
  destruct em as [v|err|]; cbn;
    [| destruct (node_env =? "development") eqn:Hdev, (is_unauthorized err), win;
       cbn; rewrite ?Hdev; cbn |];
    repeat match goal with |- _ /\ _ => split end;
    try reflexivity;
    try (intros t Hin; cbn in Hin; try contradiction;
         destruct Hin as [<-|[]]; reflexivity);
    intros [H|H]; try discriminate H; split; reflexivity.
Qed.

(** X9. The error link is transparent and touches nothing but the
    location: for any sequence of emissions (values, errors, completions)
    it never fails, hands each emission to the observer unchanged and in
    order, never writes the store and never calls the provider.  Every
    redirect it performs goes to ['/'].  Without a window (rendering on
    the server), or when no emission is an UNAUTHORIZED client error, it
    redirects nowhere and leaves the world as it is. *)
Theorem errorLink_is_transparent (es : list Emission) (w : World) (e : E) :
  let r := run env (same_tick es) w e in
  result r = Returned tt /\
  observed (events r) = map forwarded es /\
  store_writes (events r) = [] /\
  provider_calls (events r) = [] /\
  (forall target, In target (redirects (events r)) -> target = "/") /\
  (w_window w = false \/
   (forall em, In em es ->
      match em with em_error err => is_unauthorized err = false | _ => True end) ->
   redirects (events r) = [] /\ world r = w).
Proof.
  cbv zeta.
  enough (H : result (run env (same_tick es) w e) = Returned tt /\
              observed (events (run env (same_tick es) w e)) = map forwarded es /\
              store_writes (events (run env (same_tick es) w e)) = [] /\
              provider_calls (events (run env (same_tick es) w e)) = [] /\
              (forall target, In target (redirects (events (run env (same_tick es) w e))) ->
                              target = "/") /\
              (w_window w = false \/
               (forall em, In em es ->
                  match em with
                  | em_error err => is_unauthorized err = false
                  | _ => True
                  end) ->
               redirects (events (run env (same_tick es) w e)) = [] /\
               world (run env (same_tick es) w e) = w) /\
              w_window (world (run env (same_tick es) w e)) = w_window w).
  { destruct H as (H1 & H2 & H3 & H4 & H5 & H6 & _). auto 10. }
  revert w e. induction es as [|em es IH]; intros w e.
  - cbn. repeat split; auto. intros t [].
  - cbn [same_tick map]. rewrite run_bind.
    destruct (errorLink_emission em w e)
      as (Hres & Henv & Hobs & Hsw & Hpc & Hwin & Hred & Hquiet).
    cbv zeta. rewrite Hres. cbn [result world environment events].
    rewrite Henv.
    destruct (IH (world (run env (errorLink em) w e)) e)
      as (IH1 & IH2 & IH3 & IH4 & IH5 & IH6 & IH7).
    rewrite observed_app, store_writes_app, provider_calls_app, redirects_app.
    rewrite Hobs, Hsw, Hpc, IH1, IH2, IH3, IH4, IH7, Hwin.
    repeat split; try reflexivity.
    + intros t Hin. apply in_app_or in Hin as [Hin|Hin]; auto.
    + assert (Hq : w_window w = false \/
                   match em with
                   | em_error err => is_unauthorized err = false
                   | _ => True
                   end).
      { destruct H as [H|H]; [left; exact H | right; apply H; left; reflexivity]. }
      destruct (Hquiet Hq) as [Hr Hw].
      assert (Hq' : w_window (world (run env (errorLink em) w e)) = false \/
                    (forall em', In em' es ->
                       match em' with
                       | em_error err => is_unauthorized err = false
                       | _ => True
                       end)).
      { destruct H as [H|H]; [left; now rewrite Hwin | right].
        intros em' Hin. apply H. now right. }
      destruct (IH6 Hq') as [Hr' _]. now rewrite Hr, Hr'.
    + assert (Hq : w_window w = false \/
                   match em with
                   | em_error err => is_unauthorized err = false
                   | _ => True
                   end).
      { destruct H as [H|H]; [left; exact H | right; apply H; left; reflexivity]. }
      destruct (Hquiet Hq) as [Hr Hw].
      assert (Hq' : w_window (world (run env (errorLink em) w e)) = false \/
                    (forall em', In em' es ->
                       match em' with
                       | em_error err => is_unauthorized err = false
                       | _ => True
                       end)).
      { destruct H as [H|H]; [left; now rewrite Hwin | right].
        intros em' Hin. apply H. now right. }
      destruct (IH6 Hq') as [_ Hw']. now rewrite Hw', Hw.
Qed.

(** X10. Retry policy against the link: an error for which the link
    redirects is never retried, whatever the failure count.  A query is
    retried only after its first failure (failure count 0) and only for
    an error whose code is not UNAUTHORIZED, whatever the class of the
    error (so an UNAUTHORIZED error that is not a [TRPCClientError] is
    neither redirected nor retried); every error whose code is not
    UNAUTHORIZED is retried once. *)
Theorem redirected_errors_are_never_retried (err : RpcError) (w : World) (e : E) :
  (redirects (events (run env (errorLink (em_error err)) w e)) <> [] ->
   forall n, retry n err = false) /\
  (forall n, retry n err = true ->
     n = 0 /\ data_code err <> Some "UNAUTHORIZED" /\ is_unauthorized err = false) /\
  (data_code err = Some "UNAUTHORIZED" -> forall n, retry n err = false) /\
  (data_code err <> Some "UNAUTHORIZED" ->
   retry 0 err = true /\ forall n, retry (S n) err = false).
Proof.
  unfold retry, is_unauthorized.
  split; [| split; [| split]].
  - intros Hred n.
    destruct (errorLink_emission (em_error err) w e) as (_ & _ & _ & _ & _ & _ & _ & Hq).
    destruct (data_code err) as [c|] eqn:Hc.
    + destruct (c =? "UNAUTHORIZED") eqn:Hcu; [reflexivity|].
      exfalso. apply Hred. apply Hq. right. unfold is_unauthorized.
      rewrite Hc, Hcu. apply andb_false_r.
    + exfalso. apply Hred. apply Hq. right. unfold is_unauthorized.
      rewrite Hc. apply andb_false_r.
  - intros n H.
    destruct (data_code err) as [c|];
      [destruct (String.eqb_spec c "UNAUTHORIZED"); [discriminate H|]|];
      (split; [destruct n; [reflexivity | discriminate H]|]);
      (split; [congruence | apply andb_false_r]).
  - intros -> n. reflexivity.
  - intros Hne. split.
    + destruct (data_code err) as [c|] eqn:Hc; [|reflexivity].
      destruct (String.eqb_spec c "UNAUTHORIZED"); [subst; contradiction | reflexivity].
    + intros n. destruct (data_code err) as [c|]; [destruct (c =? "UNAUTHORIZED")|];
        reflexivity.
Qed.

(** X11. The [getSession] of [useAuth] returns a token and a user
    together or neither: a token only when the provider holds a non-empty
    one and the store had a user at render time.  With no user in the
    store (after a sign-out, say) it returns no token even if the
    provider still has a session.  It never writes the store. *)
Theorem useAuth_getSession_token_needs_user (user : option User) (w : World) (e : E) :
  let r := run env (useAuth_getSession user) w e in
  store_writes (events r) = [] /\
  (forall tok u, result r = Returned (tok, u) ->
     (tok = None /\ u = None) \/
     (exists t u' resp s,
        tok = Some t /\ u = Some u' /\ user = Some u' /\ t <> "" /\
        In (getSession, Resolved resp) (provider_calls (events r)) /\
        data_session resp = Some s /\ access_token s = t)) /\
  (user = None -> forall v, result r = Returned v -> v = (None, None)).
Proof.
  cbn.
  destruct (env getSession w e) as [[[resp|t] w1] e1]; cbn;
    [| repeat split; intros; discriminate ].
  destruct (data_session resp) as [s|] eqn:Hs; cbn;
    [ unfold truthy; destruct (String.eqb_spec (access_token s) "") as [He|He]; cbn |];
    destruct user as [usr|]; cbn;
    (split; [reflexivity|]);
    (split;
     [ intros tok u Hr; injection Hr as <- <-;
       first [ left; split; reflexivity
             | right; exists (access_token s), usr, resp, s;
               repeat split; auto ]
     | intros Hu v Hr; try discriminate Hu; injection Hr as <-; reflexivity ]).
Qed.

(** X12. Logging out from the header always ends at ['/']: whatever the
    provider does, [handleLogout] returns normally having cleared the
    query cache and pushed ['/'], and the store is the logged-out
    snapshot.  Its [catch] branch is never taken. *)
Theorem logout_always_goes_home (w : World) (e : E) :
  let r := run env handleLogout w e in
  result r = Returned [queryClient_clear; router_push "/"] /\
  w_store (world r) = logged_out_state None /\
  ~ In (ev_out (console c_error "Logout error:")) (events r).
Proof.
  cbn.
  destruct (env (signOut "global") _ e) as [[[r1|t1] w1] e1]; cbn;
    [ destruct (resp_error r1); cbn;
      (destruct (env getSession w1 e1) as [[[r2|t2] w2] e2]; cbn;
       [ destruct (data_session r2); cbn;
         [ destruct (env (signOut "global") w2 e2) as [[[r3|t3] w3] e3]; cbn
         | destruct (w_node_env w2 =? "development"); cbn ] | ]) | ];
    repeat split; try reflexivity;
    intros Hin; cbn in Hin;
    repeat (destruct Hin as [Hin|Hin]; try discriminate Hin); contradiction.
Qed.

(** X13. Submitting the login form asks the provider once and first
    clears the form's error.  [onSuccess] is called exactly when sign-in
    did not throw, that is whenever the provider answered without an
    error (and the user it returned, if any, has an e-mail or a display
    name), whether or not a session was established.  When sign-in
    throws, the form's error becomes the message of what was thrown: the
    provider's error message, or the message of the rejection (possibly
    none).  The handler itself throws exactly when the provider's call
    rejects with [null] or [undefined]: reading [message] from it is a
    [TypeError] that nothing catches, and the form's error stays
    cleared. *)
Theorem login_form_outcome (em pw : string) (w : World) (e : E) :
  let r := run env (LoginForm_handleSubmit em pw) w e in
  let calls := provider_calls (events r) in
  (exists o, calls = [(signInWithPassword em pw, o)]) /\
  (exists effects uncaught,
     result r = Returned (setError None :: effects, uncaught)) /\
  (forall resp, In (signInWithPassword em pw, Resolved resp) calls ->
     resp_error resp = None ->
     (forall su, data_user resp = Some su -> toUser su <> None) ->
     result r = Returned ([setError None; onSuccess], None)) /\
  (forall resp su, In (signInWithPassword em pw, Resolved resp) calls ->
     resp_error resp = None -> data_user resp = Some su -> toUser su = None ->
     result r =
       Returned ([setError None;
                  setError (thrown_message (TypeError_reading false "split"))],
                 None)) /\
  (forall resp err, In (signInWithPassword em pw, Resolved resp) calls ->
     resp_error resp = Some err ->
     result r = Returned ([setError None; setError (Some (ae_message err))], None)) /\
  (forall t, In (signInWithPassword em pw, Rejected t) calls ->
     t <> ThrownNull -> t <> ThrownUndefined ->
     result r = Returned ([setError None; setError (thrown_message t)], None)) /\
  (In (signInWithPassword em pw, Rejected ThrownNull) calls ->
     result r =
       Returned ([setError None], Some (TypeError_reading true "message"))) /\
  (In (signInWithPassword em pw, Rejected ThrownUndefined) calls ->
     result r =
       Returned ([setError None], Some (TypeError_reading false "message"))) /\
  (forall effects t, result r = Returned (effects, Some t) ->
     In (signInWithPassword em pw, Rejected ThrownNull) calls \/
     In (signInWithPassword em pw, Rejected ThrownUndefined) calls) /\
  (forall effects uncaught, result r = Returned (effects, uncaught) ->
     In onSuccess effects ->
     exists resp, calls = [(signInWithPassword em pw, Resolved resp)] /\
                  resp_error resp = None).
Proof.
  cbn.
  destruct (env (signInWithPassword em pw) _ e) as [[[resp|t] w1] e1]; cbn;
    [ destruct (resp_error resp) eqn:He, (data_user resp) as [su0|] eqn:Hu,
               (data_session resp); cbn;
      try (unfold user_literal; destruct (toUser su0) eqn:Hto; cbn)
    | destruct t; cbn ];
    (split; [eexists; reflexivity|]);
    (split; [do 2 eexists; reflexivity|]);
    repeat match goal with |- _ /\ _ => split end;
    intros;
    repeat match goal with
           | H : Returned _ = Returned _ |- _ => injection H as <- <-
           | H : Returned (_, _) = Returned (_, Some _) |- _ => discriminate H
           end;
    try only_call; try congruence; try reflexivity;
    try (exfalso;
         match goal with
         | H : forall su, _ -> toUser su <> None |- _ => eapply H; eauto
         end; fail);
    try (left; left; reflexivity); try (right; left; reflexivity);
    try (match goal with
         | H : In onSuccess _ |- _ =>
             cbn in H; repeat (destruct H as [H|H]; try discriminate H); contradiction
         | H : _ = onSuccess \/ _ |- _ =>
             repeat (destruct H as [H|H]; try discriminate H); contradiction
         end);
    try (eexists; split; [reflexivity | assumption]).
Qed.

End ClientMore.

(** ** The server: a profile update end to end *)

Section ServerMore.

Variable E : Type.
Variable env : ProviderCall -> World -> E -> Outcome * World * E.


End ServerMore.

(** ** The task board *)

Section Tasks.

Variable Num : Type.

Lemma TaskStatus_eqb_eq (a b : TaskStatus) : TaskStatus_eqb a b = true <-> a = b.
Proof. destruct a, b; cbn; split; intros H; try reflexivity; discriminate H. Qed.

(** X15. The three columns of the board partition the tasks: every task
    is in the column of its status and in no other, and the column sizes
    add up to the number of tasks.  Likewise the incomplete and completed
    lists. *)
Theorem board_columns_partition (tasks : list (Task Num)) :
  (forall t s, In t (getTasksByStatus tasks s) <-> In t tasks /\ status t = s) /\
  List.length (getTasksByStatus tasks todo) +
  List.length (getTasksByStatus tasks in_progress) +
  List.length (getTasksByStatus tasks done) = List.length tasks /\
  List.length (getIncompleteTasks tasks) + List.length (getCompletedTasks tasks) =
    List.length tasks.
Proof.
  split; [| split].
  - intros t s. unfold getTasksByStatus. rewrite filter_In, TaskStatus_eqb_eq.
    reflexivity.
  - unfold getTasksByStatus.
    induction tasks as [|t l IH]; cbn; [reflexivity|].
    destruct (status t); cbn; lia.
  - unfold getIncompleteTasks, getCompletedTasks.
    induction tasks as [|t l IH]; cbn; [reflexivity|].
    destruct (completed t); cbn; lia.
Qed.

Lemma find_task_id (tasks : list (Task Num)) (id : string) (t : Task Num) :
  find_task tasks id = Some t -> task_id t = id /\ In t tasks.
Proof.
  unfold find_task. intros H. apply find_some in H as [Hin Heq].
  split; [now apply String.eqb_eq | assumption].
Qed.

(** X16. [canMoveToInProgress] for an id that no task has answers
    [can = false] with nothing blocking.  For a known task, the blocking
    list is the sublist, in order, of its dependencies whose task is
    missing or not done, and [can] holds exactly when every dependency
    names an existing task that is done; a task without dependencies can
    always move. *)
Theorem canMoveToInProgress_spec (tasks : list (Task Num)) (taskId : string) :
  (find_task tasks taskId = None ->
     canMoveToInProgress tasks taskId = (false, [])) /\
  (forall task, find_task tasks taskId = Some task ->
     let '(can, blockedBy) := canMoveToInProgress tasks taskId in
     (forall dep, In dep blockedBy <->
        In dep (dependsOn task) /\
        ~ exists d, find_task tasks dep = Some d /\ status d = done) /\
     (can = true <-> blockedBy = []) /\
     (can = true <->
        forall dep, In dep (dependsOn task) ->
          exists d, find_task tasks dep = Some d /\ status d = done) /\
     (dependsOn task = [] -> can = true)).
Proof.
  unfold canMoveToInProgress. split.
  - intros ->. reflexivity.
  - intros task ->.
    set (blocked := fun depId : string =>
           match find_task tasks depId with
           | Some depTask => negb (TaskStatus_eqb (status depTask) done)
           | None => true
           end).
    assert (Hb : forall dep, blocked dep = true <->
                   ~ exists d, find_task tasks dep = Some d /\ status d = done).
    { intros dep. unfold blocked.
      destruct (find_task tasks dep) as [d|]; split.
      - intros H (d' & Hd & Hs). injection Hd as <-.
        apply TaskStatus_eqb_eq in Hs. rewrite Hs in H. discriminate H.
      - intros H. destruct (TaskStatus_eqb (status d) done) eqn:Hs; [|reflexivity].
        exfalso. apply H. exists d. split; [reflexivity | now apply TaskStatus_eqb_eq].
      - intros _ (d' & Hd & _). discriminate Hd.
      - reflexivity. }
    assert (Hin : forall dep, In dep (filter blocked (dependsOn task)) <->
                    In dep (dependsOn task) /\
                    ~ exists d, find_task tasks dep = Some d /\ status d = done).
    { intros dep. rewrite filter_In, Hb. reflexivity. }
    assert (Hnil : Nat.eqb (List.length (filter blocked (dependsOn task))) 0 = true <->
                   filter blocked (dependsOn task) = []).
    { destruct (filter blocked (dependsOn task)); cbn; split; intros H;
        try reflexivity; discriminate H. }
    split; [exact Hin|]. split; [exact Hnil|]. split.
    + rewrite Hnil. split.
      * intros Hf dep Hdep.
        destruct (find_task tasks dep) as [d|] eqn:Hd.
        -- destruct (TaskStatus_eqb (status d) done) eqn:Hs.
           ++ exists d. split; [reflexivity | now apply TaskStatus_eqb_eq].
           ++ exfalso.
              assert (Hi : In dep (filter blocked (dependsOn task))).
              { apply filter_In. split; [assumption|]. unfold blocked.
                now rewrite Hd, Hs. }
              rewrite Hf in Hi. destruct Hi.
        -- exfalso.
           assert (Hi : In dep (filter blocked (dependsOn task))).
           { apply filter_In. split; [assumption|]. unfold blocked. now rewrite Hd. }
           rewrite Hf in Hi. destruct Hi.
      * intros Hall.
        destruct (filter blocked (dependsOn task)) as [|dep l] eqn:Hf; [reflexivity|].
        exfalso.
        destruct (proj1 (Hin dep) (or_introl eq_refl)) as [Hdep Hno].
        apply Hno, Hall, Hdep.
    + intros ->. reflexivity.
Qed.

Lemma find_task_deleteTask_other (tasks : list (Task Num)) (id dep : string) :
  id <> dep -> find_task (deleteTask tasks dep) id = find_task tasks id.
Proof.
  intros Hne. unfold find_task, deleteTask.
  induction tasks as [|t l IH]; cbn; [reflexivity|].
  destruct (String.eqb_spec (task_id t) dep) as [Hd|Hd]; cbn.
  - destruct (String.eqb_spec (task_id t) id) as [Hi|Hi]; [congruence | exact IH].
  - destruct (task_id t =? id); [reflexivity | exact IH].
Qed.

Lemma find_task_deleteTask_same (tasks : list (Task Num)) (dep : string) :
  find_task (deleteTask tasks dep) dep = None.
Proof.
  unfold find_task, deleteTask.
  induction tasks as [|t l IH]; cbn; [reflexivity|].
  destruct (task_id t =? dep) eqn:Hd; cbn; [exact IH|].
  now rewrite Hd.
Qed.

(** X17. Deleting a task removes every task with that id and keeps the
    others in order; it does not touch the dependency lists.  So a task
    that depends on a deleted task stays blocked by it: after the
    deletion [canMoveToInProgress] answers [can = false] and lists the
    deleted id among the blockers. *)
Theorem deleted_dependency_blocks
    (tasks : list (Task Num)) (id dep : string) (task : Task Num) :
  find_task tasks id = Some task -> In dep (dependsOn task) -> id <> dep ->
  let tasks' := deleteTask tasks dep in
  (forall t, In t tasks' <-> In t tasks /\ task_id t <> dep) /\
  find_task tasks' id = Some task /\
  fst (canMoveToInProgress tasks' id) = false /\
  In dep (snd (canMoveToInProgress tasks' id)).
Proof.
  intros Hf Hdep Hne. cbv zeta. split; [| split].
  - intros t. unfold deleteTask. rewrite filter_In.
    destruct (String.eqb_spec (task_id t) dep); cbn; intuition congruence.
  - now rewrite find_task_deleteTask_other.
  - assert (Hin : In dep (snd (canMoveToInProgress (deleteTask tasks dep) id))).
    { unfold canMoveToInProgress.
      rewrite find_task_deleteTask_other, Hf by assumption. cbn.
      apply filter_In. split; [assumption|].
      now rewrite find_task_deleteTask_same. }
    split; [| exact Hin].
    unfold canMoveToInProgress in *.
    rewrite find_task_deleteTask_other, Hf in * by assumption. cbn in *.
    destruct (filter _ (dependsOn task)); [destruct Hin | reflexivity].
Qed.

Lemma find_task_updateTaskStatus (tasks : list (Task Num)) (id id' : string)
    (s : TaskStatus) :
  find_task (updateTaskStatus tasks id s) id' =
  match find_task tasks id' with
  | Some t => Some (if task_id t =? id then with_status t s else t)
  | None => None
  end.
Proof.
  unfold find_task, updateTaskStatus.
  induction tasks as [|t l IH]; cbn; [reflexivity|].
  destruct (task_id t =? id) eqn:Hid; cbn.
  - destruct (task_id t =? id'); [now rewrite Hid | exact IH].
  - destruct (task_id t =? id'); [now rewrite Hid | exact IH].
Qed.

(** X18. [updateTaskStatus] changes statuses only: the tasks keep their
    number, order, ids, dependencies and [completed] flags (moving a task
    to "done" on the board does not complete it), and tasks with another
    id are untouched.  Once an existing dependency has been moved to
    "done" it blocks no task any more. *)
Theorem updateTaskStatus_changes_status_only
    (tasks : list (Task Num)) (id : string) (s : TaskStatus) :
  let tasks' := updateTaskStatus tasks id s in
  map task_id tasks' = map task_id tasks /\
  map completed tasks' = map completed tasks /\
  map dependsOn tasks' = map dependsOn tasks /\
  getCompletedTasks tasks' = updateTaskStatus (getCompletedTasks tasks) id s /\
  (forall t, In t tasks -> task_id t <> id -> In t tasks') /\
  (forall t, In t tasks' -> task_id t = id -> status t = s) /\
  (s = done -> (exists d, find_task tasks id = Some d) ->
   forall other, ~ In id (snd (canMoveToInProgress tasks' other))).
Proof.
  cbv zeta. unfold updateTaskStatus at 1 2 3.
  split; [| split; [| split; [| split; [| split; [| split]]]]].
  - rewrite map_map. apply map_ext. intros t. now destruct (task_id t =? id).
  - rewrite map_map. apply map_ext. intros t. now destruct (task_id t =? id).
  - rewrite map_map. apply map_ext. intros t. now destruct (task_id t =? id).
  - unfold getCompletedTasks, updateTaskStatus.
    induction tasks as [|t l IH]; cbn; [reflexivity|].
    destruct (task_id t =? id) eqn:Hid; cbn; destruct (completed t) eqn:Hc; cbn;
      rewrite ?Hid, ?Hc; cbn; rewrite ?Hid; now rewrite IH.
  - intros t Hin Hne. unfold updateTaskStatus. apply in_map_iff. exists t.
    split; [| assumption].
    destruct (String.eqb_spec (task_id t) id); [contradiction | reflexivity].
  - intros t Hin Hid. unfold updateTaskStatus in Hin.
    apply in_map_iff in Hin as (t0 & <- & _).
    destruct (String.eqb_spec (task_id t0) id) as [He|He]; cbn in *;
      [reflexivity | contradiction].
  - intros -> (d & Hd) other Hin.
    unfold canMoveToInProgress in Hin.
    rewrite find_task_updateTaskStatus in Hin.
    destruct (find_task tasks other) as [t|]; [| destruct Hin].
    cbn in Hin. apply filter_In in Hin as [_ Hb].
    rewrite find_task_updateTaskStatus, Hd in Hb.
    destruct (find_task_id _ _ _ Hd) as [Hid _].
    apply String.eqb_eq in Hid. rewrite Hid in Hb. discriminate Hb.
Qed.

End Tasks.

(** X19. In the dependency picker, checking a task appends its id and
    keeps the earlier choices in order; unchecking removes every
    occurrence of the id and nothing else.  Checking an id that was not
    selected and unchecking it again gives back the selection. *)
Theorem handleToggle_round_trip (selected : list string) (taskId : string) :
  handleToggle selected taskId true = (selected ++ [taskId])%list /\
  (forall id, In id (handleToggle selected taskId false) <->
              In id selected /\ id <> taskId) /\
  (~ In taskId selected ->
   handleToggle (handleToggle selected taskId true) taskId false = selected).
Proof.
  unfold handleToggle. split; [reflexivity|]. split.
  - intros id. rewrite filter_In.
    destruct (String.eqb_spec id taskId); cbn; intuition congruence.
  - intros Hnot. rewrite filter_app. cbn. rewrite String.eqb_refl. cbn.
    rewrite app_nil_r.
    induction selected as [|x l IH]; cbn; [reflexivity|].
    destruct (String.eqb_spec x taskId) as [He|He]; cbn.
    + exfalso. apply Hnot. left. exact He.
    + f_equal. apply IH. intros H. apply Hnot. now right.
Qed.

(** ** [loggingOut] under interleaving; sign-out followed by a request *)

Lemma advance_ends {A} (p : Prog A) (w : World) :
  ends_not_logging_out p w ->
  match fst (fst (advance p w)) with
  | Finished _ => loggingOut (w_store (snd (fst (advance p w)))) = false
  | Awaiting c k => thread_clears (thread c k)
  end.
Proof.
  revert w.
  induction p as [a|t|R c k IH|R c v k IH|k IH|k IH|k IH|o k IH|c k IH];
    intros w Hp; cbn in *;
    try exact Hp; try (apply IH; exact Hp);
    specialize (IH _ Hp); destruct (advance k _) as [[s w'] evs]; exact IH.
Qed.

Lemma advance_owned {A} (b0 : bool) (p : Prog A) (w : World) :
  logging_out_is_owned b0 p w ->
  (loggingOut (w_store (snd (fst (advance p w)))) = true ->
   b0 = true \/
   match fst (fst (advance p w)) with
   | Finished _ => False
   | Awaiting c k => thread_clears (thread c k)
   end) /\
  Forall thread_owned (settle (fst (fst (advance p w))) []).
Proof.
  revert w.
  induction p as [a|t|R c k IH|R c v k IH|k IH|k IH|k IH|o k IH|c k IH];
    intros w Hp; cbn in *.
  - split; [intros H; left; exact (Hp H) | constructor].
  - split; [intros H; left; exact (Hp H) | constructor].
  - apply IH; exact Hp.
  - specialize (IH _ Hp). destruct (advance k _) as [[s w'] evs]. exact IH.
  - apply IH; exact Hp.
  - apply IH; exact Hp.
  - apply IH; exact Hp.
  - specialize (IH _ Hp). destruct (advance k _) as [[s w'] evs]. exact IH.
  - destruct Hp as [H1 H2]. split; [exact H1|]. constructor; [exact H2 | constructor].
Qed.

Ltac owned :=
  repeat (cbn in *;
          match goal with
          | |- True => exact I
          | |- _ /\ _ => split
          | |- forall _, _ => intro
          | |- context [user_literal ?su] =>
              unfold user_literal; destruct (toUser su) eqn:?
          | |- context [match ?x with _ => _ end] => destruct x eqn:?
          end);
  cbn in *; try congruence; auto.

Lemma programs_own_logging_out (o : Operation) (w : World) :
  logging_out_is_owned (loggingOut (w_store w)) (program o) w.
Proof.
  destruct o; owned.
  all: try (right; owned).
Qed.

(** X20. [loggingOut] is transient under any interleaving: in every
    reachable configuration, if the store has [loggingOut = true] then an
    operation is still pending that will turn it off whenever it
    finishes, whatever the provider answers.  In particular, whenever no
    operation is pending, [loggingOut] is false. *)
Theorem logging_out_is_transient (cfg : Config) (Hreach : reachable cfg) :
  (loggingOut (w_store (fst cfg)) = true ->
   exists t, In t (snd cfg) /\ thread_clears t) /\
  (snd cfg = [] -> loggingOut (w_store (fst cfg)) = false).
Proof.
  enough (H : (loggingOut (w_store (fst cfg)) = true ->
               exists t, In t (snd cfg) /\ thread_clears t) /\
              Forall thread_owned (snd cfg)).
  { destruct H as [H _]. split; [exact H|].
    intros Hnil. destruct (loggingOut (w_store (fst cfg))) eqn:Hl; [|reflexivity].
    destruct (H eq_refl) as (t & Hin & _). rewrite Hnil in Hin. destruct Hin. }
  induction Hreach as [w (Hs & _ & _) | cfg evs cfg' _ IH Hstep].
  - cbn. rewrite Hs. split; [intros H; discriminate H | constructor].
  - destruct IH as [Hclear Hown].
    destruct Hstep as [o w pool s w' evs Hadv | A c k o w pool1 pool2 s w' evs Hadv];
      cbn [fst snd] in *.
    + destruct (advance_owned _ _ _ (programs_own_logging_out o w)) as [H1 H2].
      rewrite Hadv in H1, H2. cbn [fst snd] in H1, H2. split.
      * intros Hl. destruct (H1 Hl) as [Hb | Hc].
        -- destruct (Hclear Hb) as (t & Hin & Ht). exists t. split; [|exact Ht].
           destruct s; cbn; auto.
        -- destruct s as [r|c k]; [destruct Hc|].
           exists (thread c k). split; [left; reflexivity | exact Hc].
      * destruct s; cbn in *; auto. constructor; auto. now inversion H2.
    + apply Forall_app in Hown as [Hp1 Hp2].
      inversion Hp2 as [|t l Ht Hp2']; subst. cbn in Ht.
      destruct (advance_owned _ _ _ (Ht o w)) as [H1 H2].
      rewrite Hadv in H1, H2. cbn [fst snd] in H1, H2.
      assert (Hrest : Forall thread_owned (pool1 ++ pool2)%list)
        by (apply Forall_app; auto).
      split.
      * intros Hl. destruct (H1 Hl) as [Hb | Hc].
        -- destruct (Hclear Hb) as (t & Hin & Hct).
           apply in_app_or in Hin as [Hin | [Heq | Hin]].
           ++ exists t. split; [|exact Hct].
              destruct s; cbn; [| right]; apply in_or_app; now left.
           ++ subst t. cbn in Hct.
              pose proof (advance_ends _ _ (Hct o w)) as He.
              rewrite Hadv in He. cbn [fst snd] in He.
              destruct s as [r|c' k']; [congruence|].
              exists (thread c' k'). split; [left; reflexivity | exact He].
           ++ exists t. split; [|exact Hct].
              destruct s; cbn; [| right]; apply in_or_app; now right.
        -- destruct s as [r|c' k']; [destruct Hc|].
           exists (thread c' k'). split; [left; reflexivity | exact Hc].
      * destruct s; cbn in *; auto. constructor; auto. now inversion H2.
Qed.

Lemma logging_out_after_sign_out_completes :
  let pending := start op_signOut (world0, []) in
  let idle := answer (Resolved nothing) (answer (Resolved nothing) pending) in
  loggingOut (w_store (fst pending)) = true /\
  snd idle = [] /\
  loggingOut (w_store (fst idle)) = false.
Proof.
  cbv zeta. split; [reflexivity|]. split; [reflexivity|].
  apply (logging_out_is_transient
           (answer (Resolved nothing)
              (answer (Resolved nothing) (start op_signOut (world0, []))))).
  - apply reachable_answer, reachable_answer, reachable_start, reachable_initial.
    repeat split.
  - reflexivity.
Defined.

Section SignOutThenRequest.

Variable E : Type.
Variable env : ProviderCall -> World -> E -> Outcome * World * E.

(** X21. A request prepared right after a sign-out carries no token:
    running [signOutAtom] and then [headers] yields no header, whatever
    the provider answered during the sign-out and even if it would still
    return a session; the provider is not asked again after the
    sign-out's own calls. *)
Theorem request_after_sign_out_has_no_token (w : World) (e : E) :
  let r := run env (signOutAtom ;; headers) w e in
  result r = Returned [] /\
  provider_calls (events r) = provider_calls (events (run env signOutAtom w e)) /\
  w_store (world r) = logged_out_state None.
Proof.
  cbn.
  destruct (env (signOut "global") _ e) as [[[r1|t1] w1] e1]; cbn;
    [ destruct (resp_error r1); cbn;
      (destruct (env getSession w1 e1) as [[[r2|t2] w2] e2]; cbn;
       [ destruct (data_session r2); cbn;
         [ destruct (env (signOut "global") w2 e2) as [[[r3|t3] w3] e3]; cbn
         | destruct (w_node_env w2 =? "development") eqn:Hd; cbn; rewrite ?Hd; cbn ]
       | ]) | ];
    repeat match goal with
           | |- context [if ?b then _ else _] => destruct b eqn:?; cbn
           end;
    repeat split; reflexivity.
Qed.

End SignOutThenRequest.

(** ** These properties at concrete inputs *)

Lemma flag_after_initialize :
  run (quiet scripted) initialize (fst (start op_initialize (world0, [])))
    [Resolved with_session] =
    mkRan (Returned tt) (fst (start op_initialize (world0, [])))
      [Resolved with_session] [] /\
  w_initializingRef (world (run (quiet scripted) initialize world0
                              [Resolved with_session])) = false /\
  w_initializingRef (world (run (with_event scripted cleanup) initialize world0
                              [Resolved with_session])) = true.
Proof.
  split.
  - apply (proj1 (initialize_flag_lifecycle _ scripted
                    (fst (start op_initialize (world0, [])))
                    [Resolved with_session])).
    reflexivity.
  - destruct (proj2 (initialize_flag_lifecycle _ scripted world0
                       [Resolved with_session]) eq_refl)
      as (_ & _ & H1 & _ & _ & H2 & _).
    split; [exact (H1 eq_refl) | exact H2].
Defined.

Lemma signed_out_event_with_a_session :
  store_writes (snd (advance (onAuthStateChange "SIGNED_OUT" (Some alice_session))
                       world0)) = [logged_out_state None].
Proof.
  apply (proj1 (handled_event_store_effect world0 "SIGNED_OUT" (Some alice_session)
                  eq_refl eq_refl)).
  reflexivity.
Defined.

Lemma deleting_a_dependency :
  let tasks := [a_task "a" todo []; a_task "b" todo ["a"]] in
  canMoveToInProgress (deleteTask tasks "a") "b" = (false, ["a"]) /\
  fst (canMoveToInProgress (deleteTask tasks "a") "b") = false.
Proof.
  cbv zeta. split; [reflexivity|].
  apply (deleted_dependency_blocks nat
           [a_task "a" todo []; a_task "b" todo ["a"]] "b" "a"
           (a_task "b" todo ["a"]) eq_refl (or_introl eq_refl)).
  discriminate.
Defined.

(** The provider answers a sign-in with neither error nor session: the
    form reports success although the store is not authenticated. *)
Lemma login_form_success_without_session :
  let r := run (quiet scripted) (LoginForm_handleSubmit "alice@example.com" "pw")
             world_logged_out [Resolved nothing] in
  result r = Returned ([setError None; onSuccess], None) /\
  isAuthenticated (w_store (world r)) = false.
Proof.
  cbv zeta. split; [| reflexivity].
  apply (proj1 (proj2 (proj2 (login_form_outcome _ (quiet scripted)
                                "alice@example.com" "pw"
                                world_logged_out [Resolved nothing]))) nothing);
    [left; reflexivity | reflexivity | intros su H; discriminate H].
Defined.
